(** * Room registry and signaling relay (src/api/index.ts)

    A shallow embedding of the socket.io signaling server: the module-level
    [rooms] object, the per-connection closure variable [currentRoom], and the
    four event handlers [register], [signal], [user-toggle-video] and
    [disconnect].

    The file has five parts.

    - The first reads [rooms] as a dictionary of own keys ([gmap]) and gives
      every connection an address of its own: the server as it runs while
      room names are ordinary strings, none inherited from
      [Object.prototype] and none equal to a socket id.  Reading a missing
      key gives [None] (JS [undefined]); reading or writing a property of
      [undefined] raises [TypeError], which the handler monad keeps track of.
      Connection ids are issued once and never reused, and a connection
      leaves every group when it disconnects.
    - [Origins] is the parsing of the allowed origins.
    - [Legacy] is the single-room variant of the server.
    - [Js] follows the handlers on JavaScript objects, prototype chain
      included, and on socket.io's single name space of rooms, for any room
      name a client may send.
    - The last part relates the first and [Js]: on runs with ordinary names
      the handlers of [Js] do what the dictionary model does, and the
      properties of the relay are proved of [Js] on such runs. *)

From stdpp Require Import gmap strings list fin_maps fin_sets.

Open Scope string_scope.
Set Warnings "-clear-no-such-hyp".

(** ** Data model *)

(** [Peer]: [{ username, isVideoEnabled }]. *)
Record Peer := { username : string; isVideoEnabled : bool }.

(** The signal payload ([data: any]) is never inspected by the server. *)
Definition Payload := string.

(** Outbound messages, by event name. *)
Inductive Msg :=
| Introduction (peers : option (gmap string Peer))
| NewUserConnected (id : string) (name : string)
| SignalMsg (to from : string) (data : Payload)
| UserToggledVideo (id : string) (isEnabled : bool)
| UserDisconnected (id : string).

(** A message handed to the transport for one connection. *)
Definition Delivery : Type := string * Msg.

(** The state of the server process.
    - [rooms]: the module-level registry, roomId -> (socket id -> Peer);
    - [currentRoom]: for every live connection, the closure variable
      [currentRoom : string | null] of its handlers;
    - [joined]: for every live connection, the broadcast groups it joined;
    - [issued]: every connection id the transport has handed out so far. *)
Record World := {
  rooms : gmap string (gmap string Peer);
  currentRoom : gmap string (option string);
  joined : gmap string (gset string);
  issued : gset string
}.

Definition init : World :=
  {| rooms := ∅; currentRoom := ∅; joined := ∅; issued := ∅ |}.

(** ** Handler monad: state, outbox and [TypeError] *)

Inductive Result (A : Type) :=
| Ok (a : A)
| TypeError.
Arguments Ok {A} a.
Arguments TypeError {A}.

Definition M (A : Type) : Type := World → Result (A * World * list Delivery).

Definition ret {A} (a : A) : M A := λ w, Ok (a, w, []).

Definition bind {A B} (m : M A) (f : A → M B) : M B := λ w,
  match m w with
  | Ok (a, w1, o1) =>
      match f a w1 with
      | Ok (b, w2, o2) => Ok (b, w2, (o1 ++ o2)%list)
      | TypeError => TypeError
      end
  | TypeError => TypeError
  end.

Notation "'let*' x := m 'in' f" := (bind m (λ x, f))
  (at level 10, x name, m at level 100, f at level 200, only parsing).
Notation "m >> f" := (bind m (λ _, f))
  (at level 90, right associativity, only parsing).

(** JS truthiness of a string (the empty string is falsy). *)
Definition truthy (s : string) : bool := bool_decide (s ≠ EmptyString).

(** *** Closure variable *)

(** Reading [currentRoom]. *)
Definition get_currentRoom (c : string) : M (option string) := λ w,
  Ok (default None (currentRoom w !! c), w, []).

(** [currentRoom = room]. *)
Definition set_currentRoom (c room : string) : M unit := λ w,
  Ok (tt, {| rooms := rooms w;
             currentRoom := <[c := Some room]> (currentRoom w);
             joined := joined w;
             issued := issued w |}, []).

(** *** Registry accesses *)

(** In this part [rooms] is read as a dictionary of its own keys.  The
    program's [rooms] is an object literal, which also finds the properties
    of [Object.prototype]; [Js] follows that, and [simulation] shows that the
    two agree as long as no room is named like such a property. *)

Definition with_rooms (rs : gmap string (gmap string Peer)) (w : World) : World :=
  {| rooms := rs; currentRoom := currentRoom w;
     joined := joined w; issued := issued w |}.

(** [rooms[room]] as a condition. *)
Definition rooms_has (room : string) : M bool := λ w,
  Ok (bool_decide (is_Some (rooms w !! room)), w, []).

(** [rooms[room] = {}]. *)
Definition rooms_init (room : string) : M unit := λ w,
  Ok (tt, with_rooms (<[room := ∅]> (rooms w)) w, []).

(** [rooms[room][id] = p]. *)
Definition rooms_set_peer (room id : string) (p : Peer) : M unit := λ w,
  match rooms w !! room with
  | Some m => Ok (tt, with_rooms (<[room := <[id := p]> m]> (rooms w)) w, [])
  | None => TypeError
  end.

(** [rooms[room]] as a value. *)
Definition rooms_get (room : string) : M (option (gmap string Peer)) := λ w,
  Ok (rooms w !! room, w, []).

(** [rooms[room]?.[id]] as a condition. *)
Definition rooms_has_peer (room id : string) : M bool := λ w,
  Ok (bool_decide (is_Some (rooms w !! room ≫= (.!! id))), w, []).

(** [rooms[room][id].isVideoEnabled = b]. *)
Definition rooms_set_video (room id : string) (b : bool) : M unit := λ w,
  match rooms w !! room with
  | Some m =>
      match m !! id with
      | Some p =>
          Ok (tt, with_rooms
                    (<[room := <[id := {| username := username p;
                                          isVideoEnabled := b |}]> m]> (rooms w)) w, [])
      | None => TypeError
      end
  | None => TypeError
  end.

(** [delete rooms[room][id]]. *)
Definition rooms_delete_peer (room id : string) : M unit := λ w,
  match rooms w !! room with
  | Some m => Ok (tt, with_rooms (<[room := delete id m]> (rooms w)) w, [])
  | None => TypeError
  end.

(** [Object.keys(rooms[room]).length]. *)
Definition rooms_size (room : string) : M nat := λ w,
  match rooms w !! room with
  | Some m => Ok (size m, w, [])
  | None => TypeError
  end.

(** [delete rooms[room]]. *)
Definition rooms_delete (room : string) : M unit := λ w,
  Ok (tt, with_rooms (delete room (rooms w)) w, []).

(** *** Transport *)

(** In this part a connection is in the groups it registered into, and
    [io.to(id)] is a message for connection [id].  socket.io has one name
    space of rooms, in which a socket also sits in the room of its own id and
    [io.to(id)] addresses a room; [Js] follows that, and [simulation] shows
    that the two agree, up to messages for closed connections, as long as no
    room is named like a socket id. *)

(** [socket.join(room)]. *)
Definition socket_join (c room : string) : M unit := λ w,
  Ok (tt, {| rooms := rooms w;
             currentRoom := currentRoom w;
             joined := <[c := {[room]} ∪ default ∅ (joined w !! c)]> (joined w);
             issued := issued w |}, []).

(** The connections that joined [room]. *)
Definition group (w : World) (room : string) : gset string :=
  dom (filter (λ kv : string * gset string, room ∈ kv.2) (joined w)).

(** [socket.emit(msg)]: to the calling connection. *)
Definition socket_emit (c : string) (msg : Msg) : M unit := λ w,
  Ok (tt, w, [(c, msg)]).

(** [socket.to(room).emit(msg)]: to the group, the caller excluded. *)
Definition broadcast (w : World) (c room : string) (msg : Msg) : list Delivery :=
  (λ c', (c', msg)) <$> elements (group w room ∖ {[c]}).

Definition socket_to_emit (c room : string) (msg : Msg) : M unit := λ w,
  Ok (tt, w, broadcast w c room msg).

(** [io.to(id).emit(msg)]: addressed to connection [id]. *)
Definition io_to_emit (id : string) (msg : Msg) : M unit := λ w,
  Ok (tt, w, [(id, msg)]).

(** ** The handlers *)

(** [io.on("connection", socket => { let currentRoom = null; ... })]. *)
Definition on_connection (c : string) : M unit := λ w,
  Ok (tt, {| rooms := rooms w;
             currentRoom := <[c := None]> (currentRoom w);
             joined := <[c := ∅]> (joined w);
             issued := {[c]} ∪ issued w |}, []).

(** [roomId || "default"]. *)
Definition or_default (roomId : option string) : string :=
  match roomId with
  | Some s => if truthy s then s else "default"
  | None => "default"
  end.

(** [socket.on("register", (username, roomId) => ...)]. *)
Definition on_register (c name : string) (roomId : option string) : M unit :=
  let room := or_default roomId in
  set_currentRoom c room >>
  socket_join c room >>
  (let* present := rooms_has room in
   if present then ret tt else rooms_init room) >>
  rooms_set_peer room c {| username := name; isVideoEnabled := false |} >>
  (let* snapshot := rooms_get room in
   socket_emit c (Introduction snapshot)) >>
  socket_to_emit c room (NewUserConnected c name).

(** [socket.on("signal", (to, from, data) => ...)]. *)
Definition on_signal (c to from : string) (data : Payload) : M unit :=
  let* cur := get_currentRoom c in
  match cur with
  | Some r =>
      if truthy r then
        let* found := rooms_has_peer r to in
        if found then io_to_emit to (SignalMsg to from data) else ret tt
      else ret tt
  | None => ret tt
  end.

(** [socket.on("user-toggle-video", isEnabled => ...)]. *)
Definition on_toggle_video (c : string) (isEnabled : bool) : M unit :=
  let* cur := get_currentRoom c in
  match cur with
  | Some r =>
      if truthy r then
        let* found := rooms_has_peer r c in
        if found then
          rooms_set_video r c isEnabled >>
          socket_to_emit c r (UserToggledVideo c isEnabled)
        else ret tt
      else ret tt
  | None => ret tt
  end.

(** [socket.on("disconnect", () => ...)]. *)
Definition on_disconnect (c : string) : M unit :=
  let* cur := get_currentRoom c in
  match cur with
  | Some r =>
      if truthy r then
        let* present := rooms_has r in
        if present then
          rooms_delete_peer r c >>
          (let* n := rooms_size r in
           if Nat.eqb n 0 then rooms_delete r else ret tt) >>
          socket_to_emit c r (UserDisconnected c)
        else ret tt
      else ret tt
  | None => ret tt
  end.

(** The transport removes a closing connection from all its groups before the
    [disconnect] event fires; afterwards the connection and its closure are
    gone. *)
Definition leave_all (c : string) : M unit := λ w,
  Ok (tt, {| rooms := rooms w;
             currentRoom := currentRoom w;
             joined := delete c (joined w);
             issued := issued w |}, []).

Definition close (c : string) : M unit := λ w,
  Ok (tt, {| rooms := rooms w;
             currentRoom := delete c (currentRoom w);
             joined := joined w;
             issued := issued w |}, []).

(** ** Events and runs *)

Inductive Event :=
| Connect (c : string)
| Register (c : string) (name : string) (roomId : option string)
| Signal (c : string) (to from : string) (data : Payload)
| ToggleVideo (c : string) (isEnabled : bool)
| Disconnect (c : string).

Definition handle (e : Event) : M unit :=
  match e with
  | Connect c => on_connection c
  | Register c name roomId => on_register c name roomId
  | Signal c to from data => on_signal c to from data
  | ToggleVideo c isEnabled => on_toggle_video c isEnabled
  | Disconnect c => leave_all c >> on_disconnect c >> close c
  end.

(** A connection is live between its [Connect] and its [Disconnect]. *)
Definition live (w : World) (c : string) : Prop := c ∈ dom (currentRoom w).

Global Instance live_dec w c : Decision (live w c).
Proof. unfold live. apply _. Defined.

(** What the transport can deliver: a new connection gets a fresh id; every
    other event comes from a live connection. *)
Definition enabled (w : World) (e : Event) : Prop :=
  match e with
  | Connect c => c ∉ issued w
  | Register c _ _ | Signal c _ _ _ | ToggleVideo c _ | Disconnect c => live w c
  end.

Global Instance enabled_dec w e : Decision (enabled w e).
Proof. destruct e; simpl; unfold live; apply _. Defined.

Definition step (w : World) (e : Event) : Result (World * list Delivery) :=
  match handle e w with
  | Ok (_, w', out) => Ok (w', out)
  | TypeError => TypeError
  end.

(** Running a trace of events from [w]; [None] when an event is not enabled
    or a handler throws. *)
Fixpoint run (w : World) (t : list Event) : option World :=
  match t with
  | [] => Some w
  | e :: t' =>
      if decide (enabled w e) then
        match step w e with
        | Ok (w', _) => run w' t'
        | TypeError => None
        end
      else None
  end.

Inductive reachable : World → Prop :=
| reach_init : reachable init
| reach_step w e w' out :
    reachable w → enabled w e → step w e = Ok (w', out) → reachable w'.

(** The member map of a room ([{}] when the room is absent). *)
Definition members (w : World) (room : string) : gmap string Peer :=
  default ∅ (rooms w !! room).


(** ** Closed forms of the handlers *)

Lemma elem_of_group w room c :
  c ∈ group w room ↔ ∃ gs, joined w !! c = Some gs ∧ room ∈ gs.
Proof.
  unfold group. rewrite elem_of_dom. split.
  - intros [gs Hgs]. apply map_lookup_filter_Some in Hgs as [? ?]. eauto.
  - intros (gs & ? & ?). exists gs. by apply map_lookup_filter_Some.
Qed.

Lemma elem_of_broadcast w c room msg c' msg' :
  (c', msg') ∈ broadcast w c room msg ↔
  msg' = msg ∧ c' ≠ c ∧ c' ∈ group w room.
Proof.
  unfold broadcast. rewrite list_elem_of_fmap. split.
  - intros (x & Heq & Hx). apply elem_of_elements in Hx.
    simplify_eq. set_solver.
  - intros (-> & ? & ?). exists c'. split; [done |].
    apply elem_of_elements. set_solver.
Qed.

Lemma broadcast_ext w1 w2 c room msg :
  group w1 room ∖ {[c]} = group w2 room ∖ {[c]} →
  broadcast w1 c room msg = broadcast w2 c room msg.
Proof. unfold broadcast. by intros ->. Qed.

Lemma truthy_true s : truthy s = true ↔ s ≠ EmptyString.
Proof. unfold truthy. by rewrite bool_decide_eq_true. Qed.

Lemma or_default_truthy roomId : or_default roomId ≠ EmptyString.
Proof.
  destruct roomId as [s |]; simpl; [| done].
  destruct (truthy s) eqn:E; [by apply truthy_true | done].
Qed.

Ltac unfold_handler :=
  unfold step, handle, on_register, on_signal, on_toggle_video, on_disconnect,
    on_connection, leave_all, close, bind, ret, get_currentRoom,
    set_currentRoom, rooms_has, rooms_init, rooms_set_peer, rooms_get,
    rooms_has_peer, rooms_set_video, rooms_delete_peer, rooms_size,
    rooms_delete, socket_join, socket_emit, socket_to_emit, io_to_emit,
    with_rooms; simpl.

(** The world after [register]. *)
Definition registered (w : World) (c name : string) (roomId : option string) : World :=
  let room := or_default roomId in
  {| rooms := <[room := <[c := {| username := name; isVideoEnabled := false |}]>
                          (members w room)]> (rooms w);
     currentRoom := <[c := Some room]> (currentRoom w);
     joined := <[c := {[room]} ∪ default ∅ (joined w !! c)]> (joined w);
     issued := issued w |}.

Lemma step_register w c name roomId :
  step w (Register c name roomId) =
  Ok (registered w c name roomId,
      (c, Introduction (Some (members (registered w c name roomId) (or_default roomId))))
        :: broadcast (registered w c name roomId) c (or_default roomId)
             (NewUserConnected c name)).
Proof.
  unfold registered, members. unfold_handler.
  destruct (rooms w !! or_default roomId) as [m |] eqn:E; simpl.
  - rewrite E. simpl. by rewrite !lookup_insert_eq.
  - rewrite !lookup_insert_eq. simpl.
    by rewrite !lookup_insert_eq, insert_insert_eq.
Qed.

(** The guard [currentRoom && rooms[currentRoom]?.[id]]. *)
Definition guard (w : World) (c id : string) : bool :=
  match default None (currentRoom w !! c) with
  | Some r => truthy r && bool_decide (is_Some (rooms w !! r ≫= (.!! id)))
  | None => false
  end.

Lemma guard_true w c id :
  guard w c id = true ↔
  ∃ r m, currentRoom w !! c = Some (Some r) ∧ r ≠ EmptyString ∧
         rooms w !! r = Some m ∧ is_Some (m !! id).
Proof.
  unfold guard. split.
  - destruct (currentRoom w !! c) as [[r |] |] eqn:E; simpl; try done.
    rewrite andb_true_iff, truthy_true, bool_decide_eq_true.
    intros [? Hm]. destruct (rooms w !! r) as [m |] eqn:Er; simpl in Hm.
    + by exists r, m.
    + by destruct Hm.
  - intros (r & m & -> & ? & Er & ?). simpl.
    rewrite andb_true_iff, truthy_true, bool_decide_eq_true, Er. done.
Qed.

Lemma step_signal w c to from data :
  step w (Signal c to from data) =
  Ok (w, if guard w c to then [(to, SignalMsg to from data)] else []).
Proof.
  unfold guard. unfold_handler.
  destruct (default None (currentRoom w !! c)) as [r |]; simpl; [| done].
  destruct (truthy r); simpl; [| done].
  by destruct (bool_decide _).
Qed.

Lemma step_toggle_hit w c b r m p :
  currentRoom w !! c = Some (Some r) → r ≠ EmptyString →
  rooms w !! r = Some m → m !! c = Some p →
  step w (ToggleVideo c b) =
  Ok (with_rooms (<[r := <[c := {| username := username p;
                                   isVideoEnabled := b |}]> m]> (rooms w)) w,
      broadcast w c r (UserToggledVideo c b)).
Proof.
  intros Hc Hr Hm Hp. unfold_handler. rewrite Hc. simpl.
  apply truthy_true in Hr. rewrite Hr. simpl.
  rewrite Hm. simpl. rewrite Hp. simpl. by rewrite Hm, Hp.
Qed.

Lemma step_toggle_miss w c b :
  guard w c c = false → step w (ToggleVideo c b) = Ok (w, []).
Proof.
  unfold guard. unfold_handler.
  destruct (default None (currentRoom w !! c)) as [r |]; simpl; [| done].
  destruct (truthy r); simpl; [| done].
  by intros ->.
Qed.

(** The world once connection [c] is gone, with registry [rs]. *)
Definition dropped (rs : gmap string (gmap string Peer)) (c : string) (w : World) : World :=
  {| rooms := rs;
     currentRoom := delete c (currentRoom w);
     joined := delete c (joined w);
     issued := issued w |}.

Lemma group_delete_self w c room j' :
  j' = delete c (joined w) →
  group {| rooms := rooms w; currentRoom := currentRoom w;
           joined := j'; issued := issued w |} room ∖ {[c]}
  = group w room ∖ {[c]}.
Proof.
  intros ->. apply set_eq. intros x.
  rewrite !elem_of_difference, !elem_of_group, !elem_of_singleton. simpl.
  split; intros [(gs & Hgs & ?) ?]; (split; [| done]); exists gs.
  - apply lookup_delete_Some in Hgs as [? ?]. done.
  - by rewrite lookup_delete_ne.
Qed.

Lemma step_disconnect_hit w c r m :
  currentRoom w !! c = Some (Some r) → r ≠ EmptyString → rooms w !! r = Some m →
  step w (Disconnect c) =
  Ok (dropped (if decide (delete c m = ∅) then delete r (rooms w)
               else <[r := delete c m]> (rooms w)) c w,
      broadcast w c r (UserDisconnected c)).
Proof.
  intros Hc Hr Hm. unfold dropped. unfold_handler. rewrite Hc. simpl.
  apply truthy_true in Hr. rewrite Hr. simpl.
  rewrite bool_decide_eq_true_2 by eauto. simpl.
  rewrite Hm. simpl. rewrite lookup_insert_eq. simpl.
  destruct (decide (delete c m = ∅)) as [He | Hne].
  - rewrite He, map_size_empty. simpl. rewrite delete_insert_eq.
    f_equal. f_equal. rewrite app_nil_r. apply broadcast_ext.
    by apply (group_delete_self w).
  - destruct (size (delete c m)) eqn:Es.
    { by apply map_size_empty_iff in Es. }
    simpl. f_equal. f_equal. rewrite app_nil_r. apply broadcast_ext.
    by apply (group_delete_self w).
Qed.

Lemma step_disconnect_miss w c :
  (∀ r, currentRoom w !! c = Some (Some r) → r ≠ EmptyString → rooms w !! r = None) →
  step w (Disconnect c) = Ok (dropped (rooms w) c w, []).
Proof.
  intros H. unfold dropped. unfold_handler.
  destruct (currentRoom w !! c) as [[r |] |] eqn:Hc; simpl; try done.
  destruct (truthy r) eqn:Hr; simpl; [| done].
  apply truthy_true in Hr. rewrite (H r eq_refl Hr).
  rewrite bool_decide_eq_false_2 by (intros [? ?]; congruence). done.
Qed.

Lemma step_connect w c :
  step w (Connect c) =
  Ok ({| rooms := rooms w;
         currentRoom := <[c := None]> (currentRoom w);
         joined := <[c := ∅]> (joined w);
         issued := {[c]} ∪ issued w |}, []).
Proof. done. Qed.

(** ** Member maps after each handler *)

Lemma members_registered w c name roomId r :
  members (registered w c name roomId) r =
  if decide (r = or_default roomId)
  then <[c := {| username := name; isVideoEnabled := false |}]> (members w r)
  else members w r.
Proof.
  unfold members, registered; simpl. case_decide as Hr.
  - subst r. by rewrite lookup_insert_eq.
  - by rewrite lookup_insert_ne.
Qed.

Lemma members_toggled w c b r m p r' :
  rooms w !! r = Some m → m !! c = Some p →
  dom (members (with_rooms (<[r := <[c := {| username := username p;
                                             isVideoEnabled := b |}]> m]> (rooms w)) w) r')
  = dom (members w r').
Proof.
  intros Hm Hp. unfold members; simpl.
  destruct (decide (r' = r)) as [-> | Hne].
  - rewrite lookup_insert_eq, Hm. simpl. rewrite dom_insert_L.
    apply elem_of_dom_2 in Hp. set_solver.
  - by rewrite lookup_insert_ne.
Qed.

Lemma members_dropped w c r m r' :
  rooms w !! r = Some m →
  members (dropped (if decide (delete c m = ∅) then delete r (rooms w)
                    else <[r := delete c m]> (rooms w)) c w) r'
  = if decide (r' = r) then delete c (members w r) else members w r'.
Proof.
  intros Hm. unfold members; simpl. rewrite Hm. simpl.
  destruct (decide (r' = r)) as [-> | Hne].
  - case_decide as He.
    + by rewrite lookup_delete_eq, He.
    + by rewrite lookup_insert_eq.
  - case_decide; [by rewrite lookup_delete_ne | by rewrite lookup_insert_ne].
Qed.

(** ** The invariant of reachable worlds *)

Record Inv (w : World) : Prop := {
  (** the transport knows exactly the live connections *)
  inv_joined : dom (joined w) = dom (currentRoom w);
  inv_live : dom (currentRoom w) ⊆ issued w;
  (** no room of the registry is empty *)
  inv_nonempty : ∀ r m, rooms w !! r = Some m → m ≠ ∅;
  (** registry entries belong to ids that were issued *)
  inv_entries : ∀ r c, c ∈ dom (members w r) → c ∈ issued w;
  (** a live connection is in the group of a room iff it has an entry there *)
  inv_group : ∀ c gs r, joined w !! c = Some gs →
                        (r ∈ gs ↔ c ∈ dom (members w r));
  (** a recorded current room is a real room that holds the connection *)
  inv_current : ∀ c r, currentRoom w !! c = Some (Some r) →
                       r ≠ EmptyString ∧ c ∈ dom (members w r)
}.

Lemma Inv_init : Inv init.
Proof.
  split; unfold members; simpl; set_solver.
Qed.

Lemma Inv_room_lookup w r c :
  c ∈ dom (members w r) → ∃ m, rooms w !! r = Some m ∧ is_Some (m !! c).
Proof.
  unfold members. destruct (rooms w !! r) as [m |]; simpl.
  - intros H%elem_of_dom. eauto.
  - set_solver.
Qed.

Lemma Inv_connect w c : Inv w → c ∉ issued w → Inv (
  {| rooms := rooms w;
     currentRoom := <[c := None]> (currentRoom w);
     joined := <[c := ∅]> (joined w);
     issued := {[c]} ∪ issued w |}).
Proof.
  intros [H1 H2 H3 H4 H5 H6] Hc. split; simpl.
  - rewrite !dom_insert_L. by rewrite H1.
  - rewrite dom_insert_L. set_solver.
  - done.
  - intros r c' Hin. specialize (H4 r c' Hin). set_solver.
  - intros c' gs r. rewrite lookup_insert. case_decide as Hcc.
    + intros [= <-]. subst c'. split; [set_solver |].
      intros Hin. destruct Hc. by apply (H4 r).
    + apply H5.
  - intros c' r. rewrite lookup_insert. case_decide; [done |]. apply H6.
Qed.

Lemma Inv_register w c name roomId :
  Inv w → live w c → Inv (registered w c name roomId).
Proof.
  intros [H1 H2 H3 H4 H5 H6] Hc. unfold live in Hc.
  split.
  - simpl. rewrite !dom_insert_L. rewrite H1. done.
  - simpl. rewrite dom_insert_L. set_solver.
  - simpl. intros r m. rewrite lookup_insert. case_decide.
    + intros [= <-]. apply insert_non_empty.
    + apply H3.
  - intros r c'. rewrite members_registered. case_decide.
    + rewrite dom_insert_L. intros [->%elem_of_singleton | Hin]%elem_of_union.
      * set_solver.
      * by apply (H4 r).
    + apply H4.
  - intros c' gs r. simpl. rewrite members_registered, lookup_insert.
    case_decide as Hcc.
    + subst c'. intros [= <-].
      assert (is_Some (joined w !! c)) as [gs0 Hgs0].
      { apply elem_of_dom. by rewrite H1. }
      rewrite Hgs0. simpl. specialize (H5 c gs0 r Hgs0).
      case_decide; [| set_solver]. rewrite dom_insert_L. set_solver.
    + intros Hgs. specialize (H5 c' gs r Hgs).
      case_decide; [| done]. rewrite dom_insert_L. set_solver.
  - intros c' r. simpl. rewrite members_registered, lookup_insert.
    case_decide as Hcc.
    + intros [= <-]. split; [apply or_default_truthy |].
      rewrite decide_True by done. rewrite dom_insert_L. set_solver.
    + intros Hcur. destruct (H6 c' r Hcur) as [? ?]. split; [done |].
      case_decide; [| done]. rewrite dom_insert_L. set_solver.
Qed.

Lemma Inv_toggled w c b r m p :
  Inv w → rooms w !! r = Some m → m !! c = Some p →
  Inv (with_rooms (<[r := <[c := {| username := username p;
                                    isVideoEnabled := b |}]> m]> (rooms w)) w).
Proof.
  intros [H1 H2 H3 H4 H5 H6] Hm Hp. split; try done.
  - simpl. intros r' m'. rewrite lookup_insert. case_decide.
    + intros [= <-]. apply insert_non_empty.
    + apply H3.
  - intros r' c'. rewrite (members_toggled w c b r m p r' Hm Hp). apply H4.
  - intros c' gs r'. rewrite (members_toggled w c b r m p r' Hm Hp). apply H5.
  - intros c' r'. rewrite (members_toggled w c b r m p r' Hm Hp). apply H6.
Qed.

Lemma Inv_dropped_hit w c r m :
  Inv w → rooms w !! r = Some m →
  Inv (dropped (if decide (delete c m = ∅) then delete r (rooms w)
                else <[r := delete c m]> (rooms w)) c w).
Proof.
  intros [H1 H2 H3 H4 H5 H6] Hm.
  assert (Hmem : members w r = m) by (unfold members; by rewrite Hm).
  split.
  - simpl. rewrite !dom_delete_L. by rewrite H1.
  - simpl. rewrite dom_delete_L. set_solver.
  - simpl. intros r' m'. case_decide as He.
    + rewrite lookup_delete. case_decide; [done | apply H3].
    + rewrite lookup_insert. case_decide; [by intros [= <-] | apply H3].
  - intros r' c'. rewrite members_dropped by done. case_decide.
    + rewrite dom_delete_L. intros Hin. apply (H4 r). set_solver.
    + apply H4.
  - intros c' gs r'. simpl. rewrite members_dropped by done.
    intros [Hne Hgs]%lookup_delete_Some. specialize (H5 c' gs r' Hgs).
    case_decide; [| done]. subst r'. rewrite dom_delete_L. set_solver.
  - intros c' r'. simpl. rewrite members_dropped by done.
    intros [Hne Hcur]%lookup_delete_Some. destruct (H6 c' r' Hcur) as [? ?].
    split; [done |]. case_decide; [| done]. subst r'.
    rewrite dom_delete_L. set_solver.
Qed.

Lemma Inv_dropped_miss w c :
  Inv w → Inv (dropped (rooms w) c w).
Proof.
  intros [H1 H2 H3 H4 H5 H6]. split; try done.
  - simpl. rewrite !dom_delete_L. by rewrite H1.
  - simpl. rewrite dom_delete_L. set_solver.
  - intros c' gs r'. simpl. intros [Hne Hgs]%lookup_delete_Some.
    apply (H5 c' gs r' Hgs).
  - intros c' r'. simpl. intros [Hne Hcur]%lookup_delete_Some.
    apply (H6 c' r' Hcur).
Qed.

(** Every handler runs to completion: no access to a property of
    [undefined] is ever attempted, whatever the state. *)
Lemma step_total w e : ∃ w' out, step w e = Ok (w', out).
Proof.
  destruct e as [c | c name roomId | c to from data | c b | c].
  - rewrite step_connect. eauto.
  - rewrite step_register. eauto.
  - rewrite step_signal. eauto.
  - destruct (guard w c c) eqn:G.
    + apply guard_true in G as (r & m & Hc & Hr & Hm & [p Hp]).
      rewrite (step_toggle_hit w c b r m p) by done. eauto.
    + rewrite step_toggle_miss by done. eauto.
  - destruct (currentRoom w !! c) as [[r |] |] eqn:Hc.
    + destruct (decide (r = EmptyString)) as [-> | Hr].
      { rewrite step_disconnect_miss; [eauto |]. intros r. rewrite Hc. congruence. }
      destruct (rooms w !! r) as [m |] eqn:Hm.
      * rewrite (step_disconnect_hit w c r m) by done. eauto.
      * rewrite step_disconnect_miss; [eauto |]. intros r'. rewrite Hc. congruence.
    + rewrite step_disconnect_miss; [eauto |]. intros r. rewrite Hc. congruence.
    + rewrite step_disconnect_miss; [eauto |]. intros r. rewrite Hc. congruence.
Qed.

Lemma step_Inv w e w' out :
  Inv w → enabled w e → step w e = Ok (w', out) → Inv w'.
Proof.
  intros HI He.
  destruct e as [c | c name roomId | c to from data | c b | c]; simpl in He.
  - rewrite step_connect. intros [= <- _]. by apply Inv_connect.
  - rewrite step_register. intros [= <- _]. by apply Inv_register.
  - rewrite step_signal. by intros [= <- _].
  - destruct (guard w c c) eqn:G.
    + apply guard_true in G as (r & m & Hc & Hr & Hm & [p Hp]).
      rewrite (step_toggle_hit w c b r m p) by done.
      intros [= <- _]. by apply Inv_toggled.
    + rewrite step_toggle_miss by done. by intros [= <- _].
  - destruct (currentRoom w !! c) as [[r |] |] eqn:Hc.
    + destruct (inv_current w HI c r Hc) as [Hr Hin].
      apply Inv_room_lookup in Hin as (m & Hm & _).
      rewrite (step_disconnect_hit w c r m) by done.
      intros [= <- _]. by apply Inv_dropped_hit.
    + rewrite step_disconnect_miss by (intros r; rewrite Hc; congruence).
      intros [= <- _]. by apply Inv_dropped_miss.
    + rewrite step_disconnect_miss by (intros r; rewrite Hc; congruence).
      intros [= <- _]. by apply Inv_dropped_miss.
Qed.

Lemma reachable_Inv w : reachable w → Inv w.
Proof.
  induction 1 as [| w e w' out _ IH He Hs]; [apply Inv_init |].
  by eapply step_Inv.
Qed.

Lemma run_reachable_from w t w' :
  reachable w → run w t = Some w' → reachable w'.
Proof.
  revert w. induction t as [| e t IH]; intros w Hw; simpl.
  - by intros [= <-].
  - case_decide as He; [| done].
    destruct (step w e) as [[w1 out] |] eqn:Hs; [| done].
    apply IH. by eapply reach_step.
Qed.

Lemma run_reachable t w : run init t = Some w → reachable w.
Proof. apply run_reachable_from, reach_init. Qed.

Lemma step_reachable w e w' out :
  reachable w → enabled w e → step w e = Ok (w', out) → reachable w'.
Proof. intros. by eapply reach_step. Qed.

(** ** Concrete runs *)

Definition A : string := "sockA".
Definition B : string := "sockB".

(** A and B connect and register in "room1". *)
Definition pair_trace : list Event :=
  [Connect A; Register A "alice" (Some "room1");
   Connect B; Register B "bob" (Some "room1")].

Definition pair_world : World :=
  Eval vm_compute in default init (run init pair_trace).

Lemma pair_world_run : run init pair_trace = Some pair_world.
Proof. vm_compute. reflexivity. Qed.

Lemma pair_world_reachable : reachable pair_world.
Proof. exact (run_reachable _ _ pair_world_run). Qed.

(** A alone in "room1". *)
Definition solo_trace : list Event :=
  [Connect A; Register A "alice" (Some "room1")].

Definition solo_world : World :=
  Eval vm_compute in default init (run init solo_trace).

Lemma solo_world_run : run init solo_trace = Some solo_world.
Proof. vm_compute. reflexivity. Qed.

Lemma solo_world_reachable : reachable solo_world.
Proof. exact (run_reachable _ _ solo_world_run). Qed.

(** A connected, never registered. *)
Definition fresh_world : World :=
  Eval vm_compute in default init (run init [Connect A]).

Lemma fresh_world_run : run init [Connect A] = Some fresh_world.
Proof. vm_compute. reflexivity. Qed.

Lemma fresh_world_reachable : reachable fresh_world.
Proof. exact (run_reachable _ _ fresh_world_run). Qed.

(** ** Scenarios *)

Definition alice : Peer := {| username := "alice"; isVideoEnabled := false |}.
Definition bob : Peer := {| username := "bob"; isVideoEnabled := false |}.

(** A registers first: its introduction lists A alone. *)
Example scenario_first_register :
  step fresh_world (Register A "alice" (Some "room1")) =
  Ok (solo_world, [(A, Introduction (Some {[A := alice]}))]).
Proof. vm_compute. reflexivity. Qed.

(** B joins: B is introduced to A and B, A is told about B. *)
Example scenario_second_register :
  ∃ w, run init [Connect A; Register A "alice" (Some "room1"); Connect B] = Some w ∧
       step w (Register B "bob" (Some "room1")) =
       Ok (pair_world,
           [(B, Introduction (Some (<[B := bob]> {[A := alice]})));
            (A, NewUserConnected B "bob")]).
Proof.
  eexists. split; [vm_compute; reflexivity |].
  vm_compute. reflexivity.
Qed.

(** A signals B: B alone receives it. *)
Example scenario_signal :
  step pair_world (Signal A B A "sdp") =
  Ok (pair_world, [(B, SignalMsg B A "sdp")]).
Proof. vm_compute. reflexivity. Qed.

(** A leaves, B is told; then B leaves and "room1" is gone. *)
Example scenario_disconnect :
  ∃ w1 w2,
    step pair_world (Disconnect A) = Ok (w1, [(B, UserDisconnected A)]) ∧
    rooms w1 !! "room1" = Some {[B := bob]} ∧
    step w1 (Disconnect B) = Ok (w2, []) ∧
    rooms w2 = ∅.
Proof.
  do 2 eexists.
  split; [vm_compute; reflexivity |].
  split; [vm_compute; reflexivity |].
  split; vm_compute; reflexivity.
Qed.

(** A signal before any register is dropped. *)
Example scenario_signal_unregistered :
  step fresh_world (Signal A B A "sdp") = Ok (fresh_world, []).
Proof. vm_compute. reflexivity. Qed.

(** An empty [roomId] falls back to "default". *)
Example scenario_default_room :
  or_default (Some EmptyString) = "default" ∧ or_default None = "default" ∧
  or_default (Some "room1") = "room1".
Proof. split; [| split]; reflexivity. Qed.

(** ** One room per connection *)

(** "Each connection id appears in at most one room's member map." *)
Definition one_room (w : World) : Prop :=
  ∀ c r1 r2, c ∈ dom (members w r1) → c ∈ dom (members w r2) → r1 = r2.

(** A registers in "room1" and then again in "room2". *)
Definition rejoin_trace : list Event :=
  [Connect A; Register A "alice" (Some "room1");
   Register A "alice" (Some "room2")].

Definition rejoin_world : World :=
  Eval vm_compute in default init (run init rejoin_trace).

Lemma rejoin_world_run : run init rejoin_trace = Some rejoin_world.
Proof. vm_compute. reflexivity. Qed.

(** C5. The second [register] of a connection, naming another room, leaves
    its entry in the first room: the connection is then a member of two
    rooms, and once it disconnects the first room keeps its entry for good. *)
Theorem C5_reregister_two_rooms :
  reachable rejoin_world ∧
  A ∈ dom (members rejoin_world "room1") ∧
  A ∈ dom (members rejoin_world "room2") ∧
  ¬ one_room rejoin_world ∧
  ∃ w', step rejoin_world (Disconnect A) = Ok (w', []) ∧
        ¬ live w' A ∧
        rooms w' !! "room2" = None ∧
        rooms w' !! "room1" =
          Some {[A := {| username := "alice"; isVideoEnabled := false |}]}.
Proof.
  assert (A ∈ dom (members rejoin_world "room1")) as H1.
  { apply (bool_decide_unpack _). vm_compute. exact I. }
  assert (A ∈ dom (members rejoin_world "room2")) as H2.
  { apply (bool_decide_unpack _). vm_compute. exact I. }
  split; [exact (run_reachable _ _ rejoin_world_run) |].
  split; [done |]. split; [done |]. split.
  - intros H. by specialize (H A "room1" "room2" H1 H2).
  - eexists. split; [vm_compute; reflexivity |].
    split; [| split; [vm_compute; reflexivity | vm_compute; reflexivity]].
    intros Hl. apply (bool_decide_pack _) in Hl. vm_compute in Hl. exact Hl.
Qed.

(** The defect is confined to a [register] that changes rooms: as long as
    every [register] is a first registration or names the connection's
    current room again, each entry of the registry sits in the current room
    of its connection, and so in one room only. *)
Definition tidy (w : World) : Prop :=
  ∀ c r, c ∈ dom (members w r) → currentRoom w !! c = Some (Some r).

Definition keeps_room (w : World) (e : Event) : Prop :=
  match e with
  | Register c _ roomId =>
      ∀ r, currentRoom w !! c = Some (Some r) → r = or_default roomId
  | _ => True
  end.

Lemma tidy_one_room w : tidy w → one_room w.
Proof.
  intros Ht c r1 r2 H1 H2.
  pose proof (Ht c r1 H1) as E1. pose proof (Ht c r2 H2) as E2. congruence.
Qed.

Lemma tidy_step w e w' out :
  Inv w → tidy w → enabled w e → keeps_room w e →
  step w e = Ok (w', out) → tidy w'.
Proof.
  intros HI Ht He Hk.
  destruct e as [c | c name roomId | c to from data | c b | c]; simpl in *.
  - rewrite step_connect. intros [= <- _] c' r Hin. simpl.
    assert (c' ≠ c).
    { intros ->. apply He. by apply (inv_entries w HI r). }
    rewrite lookup_insert_ne by done. by apply Ht.
  - rewrite step_register. intros [= <- _] c' r.
    rewrite members_registered. simpl. rewrite lookup_insert.
    case_decide as Hr; case_decide as Hc; subst; try done.
    + rewrite dom_insert_L. intros Hin. apply Ht. set_solver.
    + intros Hin. specialize (Ht c' r Hin). by destruct (Hr (Hk r Ht)).
    + apply Ht.
  - rewrite step_signal. by intros [= <- _].
  - destruct (guard w c c) eqn:G.
    + apply guard_true in G as (r & m & Hc & Hr & Hm & [p Hp]).
      rewrite (step_toggle_hit w c b r m p) by done.
      intros [= <- _] c' r'. rewrite (members_toggled w c b r m p r' Hm Hp).
      apply Ht.
    + rewrite step_toggle_miss by done. by intros [= <- _].
  - destruct (currentRoom w !! c) as [[r |] |] eqn:Hc.
    + destruct (inv_current w HI c r Hc) as [Hr Hin].
      destruct (Inv_room_lookup w r c Hin) as (m & Hm & _).
      rewrite (step_disconnect_hit w c r m) by done.
      intros [= <- _] c' r'. rewrite members_dropped by done. simpl.
      case_decide as Hr'.
      * subst r'. rewrite dom_delete_L. intros Hin'.
        rewrite lookup_delete_ne by set_solver. apply Ht. set_solver.
      * intros Hin'. specialize (Ht c' r' Hin').
        rewrite lookup_delete_ne; [done |]. intros ->. congruence.
    + rewrite step_disconnect_miss by (intros r; rewrite Hc; congruence).
      intros [= <- _] c' r' Hin'. specialize (Ht c' r' Hin'). simpl.
      rewrite lookup_delete_ne; [done |]. intros ->. congruence.
    + unfold live in He. apply elem_of_dom in He as [? He]. congruence.
Qed.

(** ** Unregistered connections *)

(** C8. For a connection whose current room is still [null]: [signal] sends
    nothing, [user-toggle-video] changes nothing and sends nothing,
    [disconnect] leaves the registry as it is and sends nothing; each handler
    completes without throwing. *)
Theorem C8_unregistered_noop w c :
  currentRoom w !! c = Some None →
  (∀ to from data, step w (Signal c to from data) = Ok (w, [])) ∧
  (∀ b, step w (ToggleVideo c b) = Ok (w, [])) ∧
  (∃ w', step w (Disconnect c) = Ok (w', []) ∧ rooms w' = rooms w).
Proof.
  intros Hc.
  assert (∀ id, guard w c id = false) as G.
  { intros id. unfold guard. by rewrite Hc. }
  split; [| split].
  - intros to from data. by rewrite step_signal, G.
  - intros b. by apply step_toggle_miss.
  - exists (dropped (rooms w) c w). split; [| done].
    apply step_disconnect_miss. intros r. rewrite Hc. congruence.
Qed.

Lemma C8_unregistered_noop_witness :
  currentRoom fresh_world !! A = Some None ∧
  step fresh_world (Signal A B A "offer") = Ok (fresh_world, []).
Proof.
  split; [reflexivity |].
  exact (proj1 (C8_unregistered_noop fresh_world A eq_refl) B A "offer").
Defined.

(** ** Member count of a room *)

(** Every [register] of the trace names room [r]. *)
Definition targets (r : string) (e : Event) : Prop :=
  match e with
  | Register _ _ roomId => or_default roomId = r
  | _ => True
  end.

Global Instance targets_dec r e : Decision (targets r e).
Proof. destruct e; simpl; apply _. Defined.












(** * Further properties of the handlers *)

(** The connection an event comes from. *)
Definition actor (e : Event) : string :=
  match e with
  | Connect c | Register c _ _ | Signal c _ _ _ | ToggleVideo c _
  | Disconnect c => c
  end.

(** A handler run for one connection leaves every other connection's
    registry entries, closure variable and group subscriptions alone. *)
Lemma step_other w e w' out c' :
  step w e = Ok (w', out) → c' ≠ actor e →
  (∀ r, members w' r !! c' = members w r !! c') ∧
  currentRoom w' !! c' = currentRoom w !! c' ∧
  joined w' !! c' = joined w !! c'.
Proof.
  intros Hs Hne.
  destruct e as [c | c name roomId | c to from data | c b | c]; simpl in Hne.
  - rewrite step_connect in Hs. injection Hs as <- _. simpl.
    by rewrite !lookup_insert_ne.
  - rewrite step_register in Hs. injection Hs as <- _. split.
    + intros r. rewrite members_registered. case_decide; [| done].
      by rewrite lookup_insert_ne.
    + simpl. by rewrite !lookup_insert_ne.
  - rewrite step_signal in Hs. by injection Hs as <- _.
  - destruct (guard w c c) eqn:G.
    + apply guard_true in G as (r & m & Hc & Hr & Hm & [p Hp]).
      rewrite (step_toggle_hit w c b r m p) in Hs by done.
      injection Hs as <- _. split; [| done].
      intros r'. unfold members. simpl.
      destruct (decide (r' = r)) as [-> | Hr'].
      * rewrite lookup_insert_eq, Hm. simpl. by rewrite lookup_insert_ne.
      * by rewrite lookup_insert_ne.
    + rewrite step_toggle_miss in Hs by done. by injection Hs as <- _.
  - assert (∀ rs, currentRoom (dropped rs c w) !! c' = currentRoom w !! c' ∧
                  joined (dropped rs c w) !! c' = joined w !! c') as Hd.
    { intros rs. simpl. by rewrite !lookup_delete_ne. }
    destruct (currentRoom w !! c) as [[r |] |] eqn:Hc.
    + destruct (decide (r = EmptyString)) as [-> | Hr].
      { rewrite step_disconnect_miss in Hs by (intros r; rewrite Hc; congruence).
        injection Hs as <- _. split; [done | apply Hd]. }
      destruct (rooms w !! r) as [m |] eqn:Hm.
      * rewrite (step_disconnect_hit w c r m) in Hs by done.
        injection Hs as <- _. split; [| apply Hd].
        intros r'. rewrite members_dropped by done. case_decide; [| done].
        subst r'. by rewrite lookup_delete_ne.
      * rewrite step_disconnect_miss in Hs by (intros r'; rewrite Hc; congruence).
        injection Hs as <- _. split; [done | apply Hd].
    + rewrite step_disconnect_miss in Hs by (intros r; rewrite Hc; congruence).
      injection Hs as <- _. split; [done | apply Hd].
    + rewrite step_disconnect_miss in Hs by (intros r; rewrite Hc; congruence).
      injection Hs as <- _. split; [done | apply Hd].
Qed.

(** X1. Whatever the state, reachable or not, no handler reads or writes a
    property of a missing room or peer: every event is handled to the end
    without a [TypeError]. *)
Theorem X1_handlers_never_throw w e : ∃ w' out, step w e = Ok (w', out).
Proof. apply step_total. Qed.

(** A connection that never registered has no entry anywhere. *)
Lemma unregistered_no_entry w :
  reachable w → ∀ c r, currentRoom w !! c = Some None → c ∉ dom (members w r).
Proof.
  induction 1 as [| w e w' out Hw IH He Hs]; intros c r Hc.
  - unfold members. simpl. set_solver.
  - pose proof (reachable_Inv w Hw) as HI.
    destruct (decide (c = actor e)) as [-> | Hne].
    + destruct e as [c | c name roomId | c to from data | c b | c]; simpl in *.
      * rewrite step_connect in Hs. injection Hs as <- _.
        intros Hm. apply He. by apply (inv_entries w HI r).
      * rewrite step_register in Hs. injection Hs as <- _.
        simpl in Hc. by rewrite lookup_insert_eq in Hc.
      * rewrite step_signal in Hs. injection Hs as <- _. by apply IH.
      * destruct (guard w c c) eqn:G.
        -- apply guard_true in G as (r0 & m & Hc0 & Hr & Hm & [p Hp]).
           rewrite (step_toggle_hit w c b r0 m p) in Hs by done.
           injection Hs as <- _. simpl in Hc. congruence.
        -- rewrite step_toggle_miss in Hs by done. injection Hs as <- _.
           by apply IH.
      * unfold step, handle, bind, close in Hs.
        destruct (leave_all c w) as [[[[] w2] o2] |]; [| done].
        destruct (on_disconnect c w2) as [[[[] w3] o3] |]; [| done].
        simpl in Hs. injection Hs as <- _. simpl in Hc.
        by rewrite lookup_delete_eq in Hc.
    + destruct (step_other w e w' out c Hs Hne) as (Hmem & Hcur & _).
      rewrite elem_of_dom, Hmem, <- elem_of_dom. apply IH. by rewrite <- Hcur.
Qed.

(** X8. Registering and then disconnecting is a round trip on the registry:
    when a connection that has not registered yet registers (into any room,
    new or existing) and then disconnects, the registry is exactly what it was
    before, and the connections told [newUserConnected] are the ones told
    [userDisconnected]. *)
Theorem X8_register_disconnect_round_trip w c name roomId :
  reachable w → currentRoom w !! c = Some None →
  ∃ w1 out1 w2 out2,
    step w (Register c name roomId) = Ok (w1, out1) ∧
    step w1 (Disconnect c) = Ok (w2, out2) ∧
    rooms w2 = rooms w ∧
    (∀ c', (c', NewUserConnected c name) ∈ out1 ↔ (c', UserDisconnected c) ∈ out2).
Proof.
  intros Hw Hc. pose proof (reachable_Inv w Hw) as HI.
  assert (live w c) as Hl by by apply elem_of_dom_2 in Hc.
  set (room := or_default roomId).
  assert (c ∉ dom (members w room)) as Hfresh by by apply unregistered_no_entry.
  assert (Inv (registered w c name roomId)) as HI1 by by apply Inv_register.
  set (p := {| username := name; isVideoEnabled := false |}).
  assert (rooms (registered w c name roomId) !! room = Some (<[c := p]> (members w room)))
    as Hm1 by (simpl; apply lookup_insert_eq).
  exists (registered w c name roomId). eexists.
  eexists. eexists. split; [apply step_register |].
  split.
  { apply (step_disconnect_hit _ c room (<[c := p]> (members w room))).
    - simpl. apply lookup_insert_eq.
    - apply or_default_truthy.
    - exact Hm1. }
  assert (delete c (<[c := p]> (members w room)) = members w room) as Hdel.
  { rewrite delete_insert_eq. apply delete_id. by apply not_elem_of_dom. }
  split.
  - simpl. rewrite Hdel. fold room. unfold members in *.
    destruct (rooms w !! room) as [m |] eqn:Em; simpl in *.
    + rewrite decide_False by (by apply (inv_nonempty w HI room)).
      rewrite insert_insert_eq. by apply insert_id.
    + rewrite decide_True by done. rewrite delete_insert_eq.
      by apply delete_id.
  - intros c'. rewrite elem_of_cons, !elem_of_broadcast. split.
    + intros [[= _ ?] | (_ & Hne & Hg)]. done.
    + intros (_ & Hne & Hg). right. done.
Qed.

Definition C : string := "sockC".

(** A and B in "room1", C connected but not registered. *)
Definition lobby_world : World :=
  Eval vm_compute in default init (run pair_world [Connect C]).

Lemma lobby_world_run : run init (pair_trace ++ [Connect C]) = Some lobby_world.
Proof. vm_compute. reflexivity. Qed.

Lemma X8_register_disconnect_round_trip_witness :
  reachable lobby_world ∧ currentRoom lobby_world !! C = Some None ∧
  ∃ w1 out1 w2 out2,
    step lobby_world (Register C "carol" (Some "room1")) = Ok (w1, out1) ∧
    step w1 (Disconnect C) = Ok (w2, out2) ∧
    rooms w2 = rooms lobby_world.
Proof.
  assert (reachable lobby_world) as Hw by exact (run_reachable _ _ lobby_world_run).
  split; [exact Hw |]. split; [reflexivity |].
  destruct (X8_register_disconnect_round_trip lobby_world C "carol" (Some "room1")
              Hw eq_refl) as (w1 & out1 & w2 & out2 & H1 & H2 & H3 & _).
  exists w1, out1, w2, out2. split; [exact H1 |]. split; [exact H2 | exact H3].
Defined.

(** * The allowed origins (src/api/index.ts, [origins])

    [(process.env.ORIGIN ?? "").split(",").map((s) => s.trim()).filter(Boolean)]

    A JavaScript string is the list of its UTF-16 code units. *)
Module Origins.

Local Open Scope list_scope.
Local Open Scope N_scope.

Definition comma : N := 44.

(** ECMAScript [WhiteSpace] and [LineTerminator], what [trim] strips. *)
Definition is_white (c : N) : bool :=
  (c =? 9) || (c =? 10) || (c =? 11) || (c =? 12) || (c =? 13) || (c =? 32)
  || (c =? 160) || (c =? 5760) || ((8192 <=? c) && (c <=? 8202))
  || (c =? 8232) || (c =? 8233) || (c =? 8239) || (c =? 8287)
  || (c =? 12288) || (c =? 65279).

(** [s.split(",")]. *)
Fixpoint split_comma (s : list N) : list (list N) :=
  match s with
  | [] => [[]]
  | c :: s' =>
      if c =? comma then [] :: split_comma s'
      else match split_comma s' with
           | seg :: segs => (c :: seg) :: segs
           | [] => [[c]]
           end
  end.

Fixpoint trimStart (s : list N) : list N :=
  match s with
  | [] => []
  | c :: s' => if is_white c then trimStart s' else s
  end.

Definition trimEnd (s : list N) : list N := reverse (trimStart (reverse s)).

(** [s.trim()]. *)
Definition trim (s : list N) : list N := trimEnd (trimStart s).

(** [Boolean(s)] for a string. *)
Definition Boolean (s : list N) : bool :=
  match s with
  | [] => false
  | _ :: _ => true
  end.

(** [origins], from the value of [process.env.ORIGIN] ([None] when unset). *)
Definition origins (env : option (list N)) : list (list N) :=
  filter (λ s, Boolean s) (trim <$> split_comma (default [] env)).

(** [segs.join(",")]. *)
Fixpoint join_comma (segs : list (list N)) : list N :=
  match segs with
  | [] => []
  | [seg] => seg
  | seg :: segs' => seg ++ comma :: join_comma segs'
  end.

Definition white (s : list N) : Prop := Forall (λ c, is_white c = true) s.

(** No comma, not empty, no white space at either end. *)
Definition clean (o : list N) : Prop :=
  o ≠ [] ∧ (comma ∉ o) ∧
  (∀ c, head o = Some c → is_white c = false) ∧
  (∀ c, last o = Some c → is_white c = false).

(** *** [split] *)

Lemma split_comma_not_nil s : split_comma s ≠ [].
Proof.
  destruct s as [| c s]; simpl; [done |].
  destruct (c =? comma); [done |]. by destruct (split_comma s).
Qed.

Lemma split_comma_plain s : comma ∉ s → split_comma s = [s].
Proof.
  induction s as [| c s IH]; [done |]. intros Hn. simpl.
  destruct (N.eqb_spec c comma) as [-> | _]; [set_solver |].
  rewrite IH; [done | set_solver].
Qed.

Lemma split_comma_app s t :
  comma ∉ s → split_comma (s ++ comma :: t) = s :: split_comma t.
Proof.
  induction s as [| c s IH]; intros Hn; simpl.
  - done.
  - destruct (N.eqb_spec c comma) as [-> | _]; [set_solver |].
    rewrite IH; [done | set_solver].
Qed.

Lemma split_join segs :
  segs ≠ [] → Forall (λ seg, comma ∉ seg) segs →
  split_comma (join_comma segs) = segs.
Proof.
  induction segs as [| seg [| seg' segs] IH]; intros Hne Hf; [done | |].
  - simpl. apply split_comma_plain. by inversion Hf.
  - change (join_comma (seg :: seg' :: segs))
      with (seg ++ comma :: join_comma (seg' :: segs)).
    inversion Hf; subst. rewrite split_comma_app by done.
    f_equal. by apply IH.
Qed.

Lemma split_comma_segments s seg c :
  seg ∈ split_comma s → c ∈ seg → c ≠ comma ∧ c ∈ s.
Proof.
  revert seg. induction s as [| a s IH]; intros seg; simpl.
  - intros ->%list_elem_of_singleton. set_solver.
  - destruct (N.eqb_spec a comma) as [-> | Ha].
    + intros [-> | Hin]%elem_of_cons Hc; [set_solver |].
      destruct (IH seg Hin Hc). set_solver.
    + destruct (split_comma s) as [| seg0 segs] eqn:E.
      { by destruct (split_comma_not_nil s). }
      intros [-> | Hin]%elem_of_cons Hc.
      * apply elem_of_cons in Hc as [-> | Hc]; [set_solver |].
        destruct (IH seg0 ltac:(left) Hc). set_solver.
      * destruct (IH seg ltac:(by right) Hc). set_solver.
Qed.

Lemma split_comma_covers s c :
  c ∈ s → c = comma ∨ ∃ seg, seg ∈ split_comma s ∧ c ∈ seg.
Proof.
  induction s as [| a s IH]; [set_solver |]. simpl.
  intros [-> | Hc]%elem_of_cons.
  - destruct (N.eqb_spec a comma) as [-> | Ha]; [by left |]. right.
    destruct (split_comma s) as [| seg0 segs]; eexists; split;
      [left | left | left | left].
  - destruct (IH Hc) as [-> | (seg & Hseg & Hin)]; [by left |]. right.
    destruct (N.eqb_spec a comma) as [-> | Ha].
    + exists seg. split; [by right | done].
    + destruct (split_comma s) as [| seg0 segs]; [set_solver |].
      apply elem_of_cons in Hseg as [-> | Hseg].
      * exists (a :: seg0). split; [left | by right].
      * exists seg. split; [by right | done].
Qed.

(** *** [trim] *)

Lemma trimStart_white pre s : white pre → trimStart (pre ++ s) = trimStart s.
Proof. induction 1 as [| c pre Hc _ IH]; simpl; [done |]. by rewrite Hc. Qed.

Lemma trimStart_keep s :
  (∀ c, head s = Some c → is_white c = false) → trimStart s = s.
Proof. destruct s as [| c s]; simpl; [done |]. intros H. by rewrite (H c). Qed.

(** [trimStart] removes a white prefix and stops at a non-white character. *)
Lemma trimStart_split s :
  ∃ pre, s = pre ++ trimStart s ∧ white pre ∧
         ∀ c, head (trimStart s) = Some c → is_white c = false.
Proof.
  induction s as [| c s (pre & Hs & Hw & Hh)]; simpl.
  - exists []. split; [done |]. split; [constructor | done].
  - destruct (is_white c) eqn:Hc.
    + exists (c :: pre). split; [simpl; by f_equal |].
      split; [by constructor | done].
    + exists []. split; [done |]. split; [constructor |].
      simpl. by intros ? [= <-].
Qed.

(** [trim] removes a white prefix and a white suffix, and what is left
    neither starts nor ends with white space. *)
Lemma trim_split s :
  ∃ pre post, s = pre ++ trim s ++ post ∧ white pre ∧ white post ∧
    (∀ c, head (trim s) = Some c → is_white c = false) ∧
    (∀ c, last (trim s) = Some c → is_white c = false).
Proof.
  destruct (trimStart_split s) as (pre & Hs & Hpre & Hh).
  destruct (trimStart_split (reverse (trimStart s))) as (tsop & Hr & Hpost & Hl).
  exists pre, (reverse tsop). unfold trim, trimEnd.
  assert (trimStart s = reverse (trimStart (reverse (trimStart s))) ++ reverse tsop)
    as Ht.
  { rewrite <- reverse_app, <- Hr. by rewrite reverse_involutive. }
  split; [by rewrite <- Ht |]. split; [done |].
  split; [by apply Forall_reverse |]. split.
  - intros c Hc. apply Hh.
    set (core := reverse (trimStart (reverse (trimStart s)))) in *.
    rewrite Ht. apply head_app_Some. by left.
  - intros c. rewrite last_reverse. apply Hl.
Qed.

Lemma trim_white s : white s → trim s = [].
Proof.
  intros Hw. unfold trim.
  rewrite <- (app_nil_r s), trimStart_white by done. done.
Qed.

Lemma trim_nil_white s : trim s = [] → white s.
Proof.
  intros Ht. destruct (trim_split s) as (pre & post & Hs & Hpre & Hpost & _).
  rewrite Ht in Hs. rewrite Hs. by apply Forall_app.
Qed.

Lemma trim_padded pre o post :
  white pre → white post →
  (∀ c, head o = Some c → is_white c = false) →
  (∀ c, last o = Some c → is_white c = false) →
  trim (pre ++ o ++ post) = o.
Proof.
  intros Hpre Hpost Hh Hl. unfold trim, trimEnd.
  rewrite trimStart_white by done.
  destruct o as [| c o].
  - simpl. rewrite <- (app_nil_r post), trimStart_white by done.
    simpl. by rewrite reverse_nil.
  - assert (trimStart ((c :: o) ++ post) = (c :: o) ++ post) as ->.
    { simpl. by rewrite (Hh c eq_refl). }
    rewrite reverse_app, trimStart_white by by apply Forall_reverse.
    rewrite trimStart_keep; [apply reverse_involutive |].
    intros c'. rewrite head_reverse. apply Hl.
Qed.

Lemma is_white_comma : is_white comma = false.
Proof. reflexivity. Qed.

Lemma white_no_comma s : white s → comma ∉ s.
Proof.
  intros Hw Hin. unfold white in Hw. rewrite Forall_forall in Hw.
  specialize (Hw comma Hin). by rewrite is_white_comma in Hw.
Qed.

Lemma Boolean_true s : Boolean s ↔ s ≠ [].
Proof. by destruct s. Qed.

(** *** The parsed list *)

Lemma origins_clean env o : o ∈ origins env → clean o.
Proof.
  unfold origins. rewrite list_elem_of_filter, list_elem_of_fmap.
  intros [Hb (seg & -> & Hseg)].
  destruct (trim_split seg) as (pre & post & Hs & _ & _ & Hh & Hl).
  split; [by apply Boolean_true |]. split; [| done].
  intros Hin.
  assert (comma ∈ seg) as Hin' by (rewrite Hs; set_solver).
  by destruct (split_comma_segments _ seg comma Hseg Hin').
Qed.

(** X9. Every allowed origin read from [ORIGIN] is non-empty, contains no
    comma, and neither starts nor ends with white space. *)
Theorem X9_origins_are_clean env o : o ∈ origins env → clean o.
Proof. apply origins_clean. Qed.

(** " a ,b" *)
Lemma X9_origins_are_clean_witness :
  [97] ∈ origins (Some [32; 97; 32; 44; 98]) ∧ clean [97].
Proof.
  assert ([97] ∈ origins (Some [32; 97; 32; 44; 98])) as Hin.
  { vm_compute. apply list_elem_of_here. }
  split; [exact Hin |].
  exact (X9_origins_are_clean (Some [32; 97; 32; 44; 98]) [97] Hin).
Defined.

(** X10. The list of allowed origins is empty exactly when [ORIGIN] is unset
    or is made of commas and white space only. *)
Theorem X10_origins_empty_iff env :
  origins env = [] ↔
  ∀ c, c ∈ default [] env → c = comma ∨ is_white c = true.
Proof.
  split.
  - intros He c Hc.
    destruct (split_comma_covers _ c Hc) as [-> | (seg & Hseg & Hin)]; [by left |].
    right.
    assert (trim seg = []) as Ht.
    { destruct (trim seg) as [| a t] eqn:Et; [done |].
      assert (a :: t ∈ origins env) as Hin'; [| by rewrite He in Hin'; set_solver].
      unfold origins. apply list_elem_of_filter. split; [done |].
      apply list_elem_of_fmap. eauto. }
    apply trim_nil_white in Ht. unfold white in Ht.
    rewrite Forall_forall in Ht. by apply Ht.
  - intros Hall. destruct (origins env) as [| o os] eqn:E; [done |].
    assert (o ∈ origins env) as Hin by (rewrite E; left).
    destruct (origins_clean env o Hin) as (Hne & _ & Hh & _).
    destruct o as [| c o]; [done |].
    unfold origins in Hin.
    apply list_elem_of_filter in Hin as [_ Hin].
    apply list_elem_of_fmap in Hin as (seg & Ht & Hseg).
    destruct (trim_split seg) as (pre & post & Hs & _).
    assert (c ∈ seg) as Hc by (rewrite Hs, <- Ht; set_solver).
    destruct (split_comma_segments _ seg c Hseg Hc) as [Hnc Hcs].
    destruct (Hall c Hcs) as [-> | Hw]; [done |].
    by rewrite (Hh c eq_refl) in Hw.
Qed.

(** One comma-separated slot of [ORIGIN]: white space, an origin or nothing,
    white space. *)
Record Slot := { before : list N; origin : option (list N); after : list N }.

Definition slot_text (x : Slot) : list N :=
  before x ++ default [] (origin x) ++ after x.

Definition slot_ok (x : Slot) : Prop :=
  white (before x) ∧ white (after x) ∧
  match origin x with Some o => clean o | None => True end.

Lemma slot_no_comma x : slot_ok x → comma ∉ slot_text x.
Proof.
  intros (Hb & Ha & Ho). unfold slot_text.
  apply white_no_comma in Hb, Ha. rewrite !elem_of_app.
  intros [? | [Hin | ?]]; [done | | done].
  destruct (origin x) as [o |]; simpl in Hin; [| set_solver].
  by destruct Ho as (_ & ? & _).
Qed.

Lemma slot_trim x : slot_ok x → trim (slot_text x) = default [] (origin x).
Proof.
  intros (Hb & Ha & Ho). apply trim_padded; [done | done | |].
  - destruct (origin x) as [o |]; simpl; [| done]. by destruct Ho as (_ & _ & ? & _).
  - destruct (origin x) as [o |]; simpl; [| done]. by destruct Ho as (_ & _ & _ & ?).
Qed.

Lemma filter_trim_slots l :
  Forall slot_ok l →
  filter (λ s, Boolean s) (trim <$> (slot_text <$> l)) = omap origin l.
Proof.
  induction 1 as [| x l Hx _ IH]; [done |].
  rewrite !fmap_cons, (slot_trim x Hx). simpl.
  destruct (origin x) as [o |] eqn:Eo; simpl.
  - destruct Hx as (_ & _ & Ho). rewrite Eo in Ho. destruct Ho as (Hne & _).
    rewrite filter_cons_True by by apply Boolean_true. by rewrite IH.
  - rewrite filter_cons_False by (by intros []). done.
Qed.

(** X11. Writing origins separated by commas and parsing them is a round
    trip: for clean origins, in any number, with any white space around each
    and any blank slots between the commas, the parsed list is exactly those
    origins, in order and with repetitions kept. *)
Theorem X11_origins_round_trip l :
  Forall slot_ok l →
  origins (Some (join_comma (slot_text <$> l))) = omap origin l.
Proof.
  intros Hl. destruct (decide (l = [])) as [-> | Hne]; [done |].
  unfold origins.
  change (default [] (Some (join_comma (slot_text <$> l))))
    with (join_comma (slot_text <$> l)).
  rewrite split_join.
  - by apply filter_trim_slots.
  - by destruct l.
  - apply Forall_fmap. eapply Forall_impl; [exact Hl |].
    intros y Hy. by apply slot_no_comma.
Qed.

(** " a,, b b ," *)
Definition sample_slots : list Slot :=
  [ {| before := [32]; origin := Some [97]; after := [] |};
    {| before := []; origin := None; after := [] |};
    {| before := [32]; origin := Some [98; 32; 98]; after := [32] |};
    {| before := []; origin := None; after := [] |} ].

Lemma sample_slots_ok : Forall slot_ok sample_slots.
Proof.
  assert (∀ a, is_white a = false → a ≠ comma → clean [a]) as H1.
  { intros a Ha Hc. split; [done |]. split.
    - intros Hin%list_elem_of_singleton. by apply Hc.
    - split; intros c [= <-]; exact Ha. }
  assert (white [32]) as Hsp by (constructor; [reflexivity | constructor]).
  assert (white []) as Hnil by constructor.
  unfold sample_slots.
  constructor; [| constructor; [| constructor; [| constructor; [| constructor]]]].
  - split; [exact Hsp |]. split; [exact Hnil |]. by apply H1.
  - split; [exact Hnil |]. split; [exact Hnil | exact I].
  - split; [exact Hsp |]. split; [exact Hsp |].
    split; [done |]. split.
    + intros Hin. apply (bool_decide_pack _) in Hin. by vm_compute in Hin.
    + split; intros c [= <-]; reflexivity.
  - split; [exact Hnil |]. split; [exact Hnil | exact I].
Qed.

Lemma X11_origins_round_trip_witness :
  Forall slot_ok sample_slots ∧
  origins (Some [32; 97; 44; 44; 32; 98; 32; 98; 32; 44]) = [[97]; [98; 32; 98]].
Proof.
  split; [exact sample_slots_ok |].
  exact (X11_origins_round_trip sample_slots sample_slots_ok).
Defined.

End Origins.

(** * The single-room server (src/unnamed/part_001)

    The variant without rooms: one module-level [peers] object keyed by socket
    id.  [socket.broadcast.emit] reaches every connected socket but the caller,
    [io.sockets.emit] every connected socket; a closing socket is no longer
    connected when its [disconnect] handler runs. *)
Module Legacy.

(** [peers[id]] starts as [{}]: both fields may be [undefined]. *)
Record Peer := { username : option string; isVideoEnabled : option bool }.

Inductive Msg :=
| Introduction (peers : gmap string Peer)
| NewUserConnected (id : string) (name : string)
| SignalMsg (to from : string) (data : Payload)
| UserToggledVideo (id : string) (isEnabled : bool)
| UserDisconnected (id : string).

Record World := {
  peers : gmap string Peer;
  connected : gset string;
  issued : gset string
}.

Definition init : World := {| peers := ∅; connected := ∅; issued := ∅ |}.

Definition with_peers (ps : gmap string Peer) (w : World) : World :=
  {| peers := ps; connected := connected w; issued := issued w |}.

(** [peers[id].field = v], through [f]. *)
Definition set_field (id : string) (f : Peer → Peer) (ps : gmap string Peer)
  : Result (gmap string Peer) :=
  match ps !! id with
  | Some p => Ok (<[id := f p]> ps)
  | None => TypeError
  end.

Definition set_username (name : string) (p : Peer) : Peer :=
  {| username := Some name; isVideoEnabled := isVideoEnabled p |}.

Definition set_video (b : bool) (p : Peer) : Peer :=
  {| username := username p; isVideoEnabled := Some b |}.

(** [socket.broadcast.emit(msg)]. *)
Definition to_others (w : World) (c : string) (msg : Msg) : list (string * Msg) :=
  (λ c', (c', msg)) <$> elements (connected w ∖ {[c]}).

(** [io.sockets.emit(msg)]. *)
Definition to_all (w : World) (msg : Msg) : list (string * Msg) :=
  (λ c', (c', msg)) <$> elements (connected w).

(** [io.on("connection", socket => { if (!peers[socket.id]) peers[socket.id] = {}; ... })]. *)
Definition on_connection (c : string) (w : World) : Result (World * list (string * Msg)) :=
  Ok ({| peers := if bool_decide (is_Some (peers w !! c)) then peers w
                  else <[c := {| username := None; isVideoEnabled := None |}]> (peers w);
         connected := {[c]} ∪ connected w;
         issued := {[c]} ∪ issued w |}, []).

(** [socket.on("register", username => ...)]. *)
Definition on_register (c name : string) (w : World) : Result (World * list (string * Msg)) :=
  match set_field c (set_username name) (peers w) with
  | Ok ps1 =>
      match set_field c (set_video false) ps1 with
      | Ok ps2 =>
          Ok (with_peers ps2 w,
              (c, Introduction ps2) :: to_others w c (NewUserConnected c name))
      | TypeError => TypeError
      end
  | TypeError => TypeError
  end.

(** [socket.on("signal", (to, from, data) => ...)]. *)
Definition on_signal (c to from : string) (data : Payload) (w : World)
  : Result (World * list (string * Msg)) :=
  if bool_decide (is_Some (peers w !! to))
  then Ok (w, [(to, SignalMsg to from data)])
  else Ok (w, []).

(** [socket.on("user-toggle-video", isEnabled => ...)]. *)
Definition on_toggle_video (c : string) (isEnabled : bool) (w : World)
  : Result (World * list (string * Msg)) :=
  match (if bool_decide (is_Some (peers w !! c))
         then set_field c (set_video isEnabled) (peers w)
         else Ok (peers w)) with
  | Ok ps => Ok (with_peers ps w, to_others w c (UserToggledVideo c isEnabled))
  | TypeError => TypeError
  end.

(** [socket.on("disconnect", () => ...)]; the socket has left already. *)
Definition on_disconnect (c : string) (w : World) : Result (World * list (string * Msg)) :=
  let w1 := {| peers := delete c (peers w);
               connected := connected w ∖ {[c]};
               issued := issued w |} in
  Ok (w1, to_all w1 (UserDisconnected c)).

Inductive Event :=
| Connect (c : string)
| Register (c : string) (name : string)
| Signal (c : string) (to from : string) (data : Payload)
| ToggleVideo (c : string) (isEnabled : bool)
| Disconnect (c : string).

Definition step (w : World) (e : Event) : Result (World * list (string * Msg)) :=
  match e with
  | Connect c => on_connection c w
  | Register c name => on_register c name w
  | Signal c to from data => on_signal c to from data w
  | ToggleVideo c isEnabled => on_toggle_video c isEnabled w
  | Disconnect c => on_disconnect c w
  end.

Definition enabled (w : World) (e : Event) : Prop :=
  match e with
  | Connect c => c ∉ issued w
  | Register c _ | Signal c _ _ _ | ToggleVideo c _ | Disconnect c =>
      c ∈ connected w
  end.

Global Instance legacy_enabled_dec w e : Decision (enabled w e).
Proof. destruct e; simpl; apply _. Defined.

Fixpoint run (w : World) (t : list Event) : option World :=
  match t with
  | [] => Some w
  | e :: t' =>
      if decide (enabled w e) then
        match step w e with
        | Ok (w', _) => run w' t'
        | TypeError => None
        end
      else None
  end.

Inductive reachable : World → Prop :=
| reach_init : reachable init
| reach_step w e w' out :
    reachable w → enabled w e → step w e = Ok (w', out) → reachable w'.

(** ** Closed forms *)

Lemma elem_of_to_others w c msg c' msg' :
  (c', msg') ∈ to_others w c msg ↔ msg' = msg ∧ c' ∈ connected w ∧ c' ≠ c.
Proof.
  unfold to_others. rewrite list_elem_of_fmap. split.
  - intros (x & Heq & Hx). apply elem_of_elements in Hx.
    simplify_eq. set_solver.
  - intros (-> & ? & ?). exists c'. split; [done |].
    apply elem_of_elements. set_solver.
Qed.

Lemma elem_of_to_all w msg c' msg' :
  (c', msg') ∈ to_all w msg ↔ msg' = msg ∧ c' ∈ connected w.
Proof.
  unfold to_all. rewrite list_elem_of_fmap. split.
  - intros (x & Heq & Hx). apply elem_of_elements in Hx. by simplify_eq.
  - intros (-> & ?). exists c'. split; [done |]. by apply elem_of_elements.
Qed.

Lemma legacy_step_register w c name p :
  peers w !! c = Some p →
  step w (Register c name) =
  Ok (with_peers (<[c := {| username := Some name;
                            isVideoEnabled := Some false |}]> (peers w)) w,
      (c, Introduction (<[c := {| username := Some name;
                                  isVideoEnabled := Some false |}]> (peers w)))
        :: to_others w c (NewUserConnected c name)).
Proof.
  intros Hp. simpl. unfold on_register, set_field. rewrite Hp.
  rewrite lookup_insert_eq. simpl. by rewrite insert_insert_eq.
Qed.

Lemma legacy_step_toggle w c b p :
  peers w !! c = Some p →
  step w (ToggleVideo c b) =
  Ok (with_peers (<[c := {| username := username p;
                            isVideoEnabled := Some b |}]> (peers w)) w,
      to_others w c (UserToggledVideo c b)).
Proof.
  intros Hp. simpl. unfold on_toggle_video, set_field. rewrite Hp.
  by rewrite bool_decide_eq_true_2 by eauto.
Qed.

(** ** Invariant *)

Record Inv (w : World) : Prop := {
  inv_peers : dom (peers w) = connected w;
  inv_issued : connected w ⊆ issued w
}.

Lemma legacy_Inv_init : Inv init.
Proof. split; simpl; set_solver. Qed.

Lemma legacy_Inv_entry w c : Inv w → c ∈ connected w → is_Some (peers w !! c).
Proof. intros [H1 _] Hc. apply elem_of_dom. by rewrite H1. Qed.

Lemma legacy_step_Inv w e w' out :
  Inv w → enabled w e → step w e = Ok (w', out) → Inv w'.
Proof.
  intros HI He.
  destruct e as [c | c name | c to from data | c b | c]; simpl in He.
  - simpl. unfold on_connection. intros [= <- _].
    destruct HI as [H1 H2]. split; simpl; [| set_solver].
    assert (peers w !! c = None) as Hn.
    { apply not_elem_of_dom. rewrite H1. set_solver. }
    rewrite bool_decide_eq_false_2 by (rewrite Hn; by intros [? ?]).
    rewrite dom_insert_L. by rewrite H1.
  - destruct (legacy_Inv_entry w c HI He) as [p Hp].
    rewrite (legacy_step_register w c name p Hp). intros [= <- _].
    destruct HI as [H1 H2]. split; simpl; [| done].
    rewrite dom_insert_L. apply elem_of_dom_2 in Hp. set_solver.
  - simpl. unfold on_signal. case_bool_decide; by intros [= <- _].
  - destruct (legacy_Inv_entry w c HI He) as [p Hp].
    rewrite (legacy_step_toggle w c b p Hp). intros [= <- _].
    destruct HI as [H1 H2]. split; simpl; [| done].
    rewrite dom_insert_L. apply elem_of_dom_2 in Hp. set_solver.
  - simpl. unfold on_disconnect. intros [= <- _].
    destruct HI as [H1 H2]. split; simpl; [| set_solver].
    rewrite dom_delete_L. by rewrite H1.
Qed.

Lemma legacy_reachable_Inv w : reachable w → Inv w.
Proof.
  induction 1 as [| w e w' out _ IH He Hs]; [apply legacy_Inv_init |].
  by eapply legacy_step_Inv.
Qed.

Lemma legacy_run_reachable w t w' :
  reachable w → run w t = Some w' → reachable w'.
Proof.
  revert w. induction t as [| e t IH]; intros w Hw; simpl.
  - by intros [= <-].
  - case_decide as He; [| done].
    destruct (step w e) as [[w1 out] |] eqn:Hs; [| done].
    apply IH. by eapply reach_step.
Qed.

(** ** Properties *)

(** X12. In every reachable state the [peers] object has an entry for exactly
    the connected sockets: nothing is left behind by a disconnect and no
    connected socket is missing. *)
Theorem X12_legacy_peers_are_connected w :
  reachable w → dom (peers w) = connected w.
Proof. intros Hw. by apply legacy_reachable_Inv. Qed.

Definition A : string := "sockA".
Definition B : string := "sockB".

(** A connected and registered, B only connected. *)
Definition duo_trace : list Event := [Connect A; Register A "alice"; Connect B].

Definition duo_world : World :=
  Eval vm_compute in default init (run init duo_trace).

Lemma duo_world_run : run init duo_trace = Some duo_world.
Proof. vm_compute. reflexivity. Qed.

Lemma duo_world_reachable : reachable duo_world.
Proof. exact (legacy_run_reachable init duo_trace duo_world reach_init duo_world_run). Qed.

Lemma X12_legacy_peers_are_connected_witness :
  reachable duo_world ∧ dom (peers duo_world) = {[A; B]}.
Proof.
  split; [exact duo_world_reachable |].
  rewrite (X12_legacy_peers_are_connected duo_world duo_world_reachable).
  vm_compute. reflexivity.
Defined.

Lemma legacy_throw_cause w e :
  step w e = TypeError → ∃ c name, e = Register c name ∧ peers w !! c = None.
Proof.
  destruct e as [c | c name | c to from data | c b | c]; simpl.
  - done.
  - unfold on_register, set_field.
    destruct (peers w !! c) as [p |] eqn:Hp; [| eauto].
    by rewrite lookup_insert_eq.
  - unfold on_signal. by case_bool_decide.
  - unfold on_toggle_video, set_field. case_bool_decide as Hc; [| done].
    by destruct Hc as [p ->].
  - done.
Qed.

(** X13. The only handler that can throw is [register], and it throws
    exactly when [peers] has no entry for the caller (the write to
    [peers[socket.id].username] then hits [undefined]). *)
Theorem X13_legacy_throws_iff w e :
  step w e = TypeError ↔ ∃ c name, e = Register c name ∧ peers w !! c = None.
Proof.
  split; [apply legacy_throw_cause |].
  intros (c & name & -> & Hp). simpl. unfold on_register, set_field.
  by rewrite Hp.
Qed.

(** X14. In a reachable state no event from a connected socket (nor a new
    connection) makes a handler throw. *)
Theorem X14_legacy_never_throws w e :
  reachable w → enabled w e → ∃ w' out, step w e = Ok (w', out).
Proof.
  intros Hw He. destruct (step w e) as [[w' out] |] eqn:Hs; [eauto |].
  apply legacy_throw_cause in Hs as (c & name & -> & Hp).
  simpl in He. destruct (legacy_Inv_entry w c (legacy_reachable_Inv w Hw) He).
  congruence.
Qed.

Lemma X14_legacy_never_throws_witness :
  reachable duo_world ∧ enabled duo_world (Register B "bob") ∧
  ∃ w' out, step duo_world (Register B "bob") = Ok (w', out).
Proof.
  assert (enabled duo_world (Register B "bob")) as He.
  { apply (bool_decide_unpack _). vm_compute. exact I. }
  split; [exact duo_world_reachable |]. split; [exact He |].
  exact (X14_legacy_never_throws duo_world (Register B "bob")
           duo_world_reachable He).
Defined.

(** X15. [signal] is relayed to [to] exactly when [to] is a connected socket:
    neither the caller nor the target needs to have registered, and there is
    no room to share.  The state is never changed. *)
Theorem X15_legacy_signal_reaches_connected w c to from data :
  reachable w →
  step w (Signal c to from data) =
  Ok (w, if decide (to ∈ connected w) then [(to, SignalMsg to from data)] else []).
Proof.
  intros Hw. apply legacy_reachable_Inv in Hw as [H1 _].
  simpl. unfold on_signal. rewrite <- H1.
  case_bool_decide as Hb; case_decide as Hd; try done.
  - destruct Hd. by apply elem_of_dom.
  - destruct Hb. by apply elem_of_dom.
Qed.

Lemma X15_legacy_signal_reaches_connected_witness :
  reachable duo_world ∧
  step duo_world (Signal A B A "offer") =
    Ok (duo_world, [(B, SignalMsg B A "offer")]).
Proof.
  split; [exact duo_world_reachable |].
  exact (X15_legacy_signal_reaches_connected duo_world A B A "offer"
           duo_world_reachable).
Defined.

(** X16. [register] by a connected socket writes [{username, isVideoEnabled:
    false}] for the caller and sends it, alone, an [introduction] holding the
    whole [peers] object after that write: one entry for every connected
    socket, registered or not.  [newUserConnected] goes to every other
    connected socket. *)
Theorem X16_legacy_register_introduces_all w c name :
  reachable w → c ∈ connected w →
  ∃ w' out,
    step w (Register c name) = Ok (w', out) ∧
    peers w' = <[c := {| username := Some name;
                         isVideoEnabled := Some false |}]> (peers w) ∧
    dom (peers w') = connected w ∧
    (∀ c' m, (c', Introduction m) ∈ out ↔ c' = c ∧ m = peers w') ∧
    (∀ c' id n, (c', NewUserConnected id n) ∈ out ↔
                id = c ∧ n = name ∧ c' ∈ connected w ∧ c' ≠ c).
Proof.
  intros Hw Hc. pose proof (legacy_reachable_Inv w Hw) as HI.
  destruct (legacy_Inv_entry w c HI Hc) as [p Hp].
  rewrite (legacy_step_register w c name p Hp). do 2 eexists.
  split; [done |]. split; [done |]. split; [| split].
  - simpl. rewrite dom_insert_L, (inv_peers w HI). set_solver.
  - intros c' m. rewrite elem_of_cons, elem_of_to_others. simpl. split.
    + intros [[= -> ->] | [? _]]; done.
    + intros [-> ->]. by left.
  - intros c' id n. rewrite elem_of_cons, elem_of_to_others. split.
    + intros [? | ([= -> ->] & ? & ?)]; done.
    + intros (-> & -> & ? & ?). by right.
Qed.

Lemma X16_legacy_register_introduces_all_witness :
  reachable duo_world ∧ (A ∈ connected duo_world) ∧
  ∃ w' out,
    step duo_world (Register A "alice") = Ok (w', out) ∧
    peers w' !! B = Some {| username := None; isVideoEnabled := None |} ∧
    (A, Introduction (peers w')) ∈ out.
Proof.
  assert (A ∈ connected duo_world) as Hc.
  { apply (bool_decide_unpack _). vm_compute. exact I. }
  split; [exact duo_world_reachable |]. split; [exact Hc |].
  destruct (X16_legacy_register_introduces_all duo_world A "alice"
              duo_world_reachable Hc) as (w' & out & Hs & Hp & _ & Hi & _).
  exists w', out. split; [exact Hs |]. split.
  - rewrite Hp. vm_compute. reflexivity.
  - apply Hi. split; reflexivity.
Defined.

(** X17. A whole visit is a round trip: when a new socket connects,
    registers and disconnects, [peers] and the set of connected sockets are
    what they were before, and the sockets told [newUserConnected] are told
    [userDisconnected]. *)
Theorem X17_legacy_visit_round_trip w c name :
  reachable w → c ∉ issued w →
  ∃ w1 w2 out2 w3 out3,
    step w (Connect c) = Ok (w1, []) ∧
    step w1 (Register c name) = Ok (w2, out2) ∧
    step w2 (Disconnect c) = Ok (w3, out3) ∧
    peers w3 = peers w ∧ connected w3 = connected w ∧
    (∀ c', (c', NewUserConnected c name) ∈ out2 ↔ (c', UserDisconnected c) ∈ out3).
Proof.
  intros Hw Hc. destruct (legacy_reachable_Inv w Hw) as [H1 H2].
  assert (c ∉ connected w) as Hnc by set_solver.
  assert (peers w !! c = None) as Hn.
  { apply not_elem_of_dom. by rewrite H1. }
  set (p0 := {| username := None; isVideoEnabled := None |}).
  set (w1 := {| peers := <[c := p0]> (peers w);
                connected := {[c]} ∪ connected w;
                issued := {[c]} ∪ issued w |}).
  exists w1. do 4 eexists. split.
  { simpl. unfold on_connection.
    by rewrite bool_decide_eq_false_2 by (rewrite Hn; by intros [? ?]). }
  split.
  { apply (legacy_step_register w1 c name p0). simpl. apply lookup_insert_eq. }
  split; [reflexivity |]. simpl.
  split; [| split].
  - rewrite insert_insert_eq, delete_insert_eq. by apply delete_id.
  - set_solver.
  - intros c'. rewrite elem_of_cons, elem_of_to_others, elem_of_to_all. simpl.
    split.
    + intros [? | (_ & ? & ?)]; [done |]. split; [done | set_solver].
    + intros (_ & ?). right. split; [done |]. set_solver.
Qed.

Definition C : string := "sockC".

Lemma X17_legacy_visit_round_trip_witness :
  reachable duo_world ∧ (C ∉ issued duo_world) ∧
  ∃ w1 w2 out2 w3 out3,
    step duo_world (Connect C) = Ok (w1, []) ∧
    step w1 (Register C "carol") = Ok (w2, out2) ∧
    step w2 (Disconnect C) = Ok (w3, out3) ∧
    peers w3 = peers duo_world.
Proof.
  assert (C ∉ issued duo_world) as Hc.
  { apply (bool_decide_unpack _). vm_compute. exact I. }
  split; [exact duo_world_reachable |]. split; [exact Hc |].
  destruct (X17_legacy_visit_round_trip duo_world C "carol"
              duo_world_reachable Hc)
    as (w1 & w2 & out2 & w3 & out3 & H1 & H2 & H3 & Hp & _).
  exists w1, w2, out2, w3, out3.
  split; [exact H1 |]. split; [exact H2 |]. split; [exact H3 | exact Hp].
Defined.

End Legacy.

(** * The handlers on JavaScript objects and socket.io rooms

    The development above reads [rooms] as a dictionary of own keys and gives
    every connection a private address.  That is how the server behaves as
    long as room names are ordinary strings.  The program itself is less
    tidy, and this module follows it:

    - [rooms] is an object literal, so [rooms[name]] and [rooms[name][key]]
      also find what [Object.prototype] holds: its built-in functions, the
      [__proto__] accessor, and whatever a handler stored there;
    - a write [rooms[name][key] = v] lands on the object [rooms[name]]
      resolves to, which need not be a room;
    - socket.io has one name space of rooms: a socket sits in the room named
      by its own id from connection on, [socket.join(room)] adds it to the
      room the client named, [io.to(id)] addresses the room named [id], and
      [socket.to(room)] addresses the room named [room] except the sockets
      in the room named by the caller's id.

    Objects created by the handlers are held by value: each object literal
    is stored in one place and its reference is never copied.  Where the
    result would depend on properties that only the engine defines (those of
    built-in function objects and of primitives), the model answers
    [Unmodelled] instead of guessing.  Socket ids come from the transport
    and are never the name of a built-in property. *)
Module Js.

Local Unset Elimination Schemes.

Inductive Val :=
| VStr (s : string)
| VBool (b : bool)
| VNull
| VObj (props : gmap string Val)   (* an object literal, with its own properties *)
| VFun (f : string)                (* the built-in function [Object.prototype.f] *)
| VProto.                          (* [Object.prototype] itself *)

Local Set Elimination Schemes.

(** The own function-valued properties of [Object.prototype]
    ([constructor] is [Object]). *)
Definition prototype_functions : list string :=
  ["constructor"; "__defineGetter__"; "__defineSetter__"; "hasOwnProperty";
   "__lookupGetter__"; "__lookupSetter__"; "isPrototypeOf";
   "propertyIsEnumerable"; "toString"; "valueOf"; "toLocaleString"].

(** Own properties of every function that an assignment cannot create. *)
Definition function_fixed : list string :=
  ["length"; "name"; "prototype"; "arguments"; "caller"].

(** Names no socket id takes. *)
Definition reserved : list string :=
  "__proto__" :: "username" :: "isVideoEnabled" ::
  (prototype_functions ++ function_fixed)%list.

(** [Introduction]'s payload is what JSON makes of [rooms[room]]: the own
    enumerable properties of an object, [null] ([None]) for a function or
    [undefined]. *)
Inductive Msg :=
| Introduction (payload : option (gmap string Val))
| NewUserConnected (id : string) (name : string)
| SignalMsg (to from : string) (data : Payload)
| UserToggledVideo (id : string) (isEnabled : bool)
| UserDisconnected (id : string).

(** A message delivered to one socket.  The deliveries of one broadcast go
    to different sockets; their order in the list has no meaning. *)
Definition Delivery : Type := string * Msg.

(** - [rooms]: the own properties of the [rooms] object;
    - [proto]: the properties handlers have put on [Object.prototype];
    - [funs]: the properties handlers have put on its built-in functions;
    - [currentRoom], [joined], [issued]: as before, except that [joined]
      holds every socket.io room of the socket, its own id included. *)
Record World := {
  rooms : gmap string Val;
  proto : gmap string Val;
  funs : gmap string (gmap string Val);
  currentRoom : gmap string (option string);
  joined : gmap string (gset string);
  issued : gset string
}.

Definition init : World :=
  {| rooms := ∅; proto := ∅; funs := ∅;
     currentRoom := ∅; joined := ∅; issued := ∅ |}.

Inductive Outcome (A : Type) :=
| Done (a : A)
| Throws
| Unmodelled.
Arguments Done {A} a.
Arguments Throws {A}.
Arguments Unmodelled {A}.

Definition M (A : Type) : Type := World → Outcome (A * World * list Delivery).

Definition ret {A} (a : A) : M A := λ w, Done (a, w, []).

Definition bind {A B} (m : M A) (f : A → M B) : M B := λ w,
  match m w with
  | Done (a, w1, o1) =>
      match f a w1 with
      | Done (b, w2, o2) => Done (b, w2, (o1 ++ o2)%list)
      | Throws => Throws
      | Unmodelled => Unmodelled
      end
  | Throws => Throws
  | Unmodelled => Unmodelled
  end.

#[local] Set Warnings "-notation-overridden".
Local Notation "'let*' x := m 'in' f" := (bind m (λ x, f))
  (at level 10, x name, m at level 100, f at level 200, only parsing).
Local Notation "m >> f" := (bind m (λ _, f))
  (at level 90, right associativity, only parsing).

Definition throw {A} : M A := λ _, Throws.
Definition unmodelled {A} : M A := λ _, Unmodelled.

(** JS truthiness. *)
Definition truthy_val (v : option Val) : bool :=
  match v with
  | None | Some VNull => false
  | Some (VStr s) => truthy s
  | Some (VBool b) => b
  | Some (VObj _) | Some (VFun _) | Some VProto => true
  end.

(** ** Property access *)

(** An own property of [Object.prototype]: what handlers stored there, then
    the built-in functions.  ([__proto__] is an accessor, see [get_prop].) *)
Definition proto_own (w : World) (k : string) : option Val :=
  match proto w !! k with
  | Some v => Some v
  | None => if bool_decide (k ∈ prototype_functions) then Some (VFun k) else None
  end.

(** [x[k]] for an object [x] already read: own properties, then the
    prototype chain. *)
Definition get_prop (w : World) (x : Val) (k : string) : Outcome (option Val) :=
  match x with
  | VObj ps =>
      match ps !! k with
      | Some v => Done (Some v)
      | None => if bool_decide (k = "__proto__") then Done (Some VProto)
                else Done (proto_own w k)
      end
  | VProto =>
      if bool_decide (k = "__proto__") then Done (Some VNull)
      else Done (proto_own w k)
  | VFun f =>
      match funs w !! f ≫= (.!! k) with
      | Some v => Done (Some v)
      | None => Unmodelled
      end
  | VStr _ | VBool _ => Unmodelled
  | VNull => Throws
  end.

(** [rooms[name]]: an own property of [rooms], else of [Object.prototype]. *)
Definition rooms_at (w : World) (name : string) : option Val :=
  match rooms w !! name with
  | Some v => Some v
  | None => if bool_decide (name = "__proto__") then Some VProto
            else proto_own w name
  end.

Definition rooms_get (name : string) : M (option Val) := λ w,
  Done (rooms_at w name, w, []).

(** [rooms[name] = {}]. *)
Definition rooms_init (name : string) : M unit := λ w,
  if bool_decide (name = "__proto__") then Unmodelled
  else Done (tt, {| rooms := <[name := VObj ∅]> (rooms w); proto := proto w;
                    funs := funs w; currentRoom := currentRoom w;
                    joined := joined w; issued := issued w |}, []).

(** The object [rooms[name]] resolves to, as a place that can be written:
    it is [f] applied to the own properties of that object which is
    written back where the object lives. *)
Definition rooms_update (name : string) (f : gmap string Val → gmap string Val)
  : M unit := λ w,
  let put_rooms v := {| rooms := <[name := v]> (rooms w); proto := proto w;
                        funs := funs w; currentRoom := currentRoom w;
                        joined := joined w; issued := issued w |} in
  let put_proto p := {| rooms := rooms w; proto := p;
                        funs := funs w; currentRoom := currentRoom w;
                        joined := joined w; issued := issued w |} in
  let put_funs g := {| rooms := rooms w; proto := proto w;
                       funs := g; currentRoom := currentRoom w;
                       joined := joined w; issued := issued w |} in
  match rooms w !! name with
  | Some (VObj ps) => Done (tt, put_rooms (VObj (f ps)), [])
  | Some _ => Unmodelled
  | None =>
      if bool_decide (name = "__proto__") then Done (tt, put_proto (f (proto w)), [])
      else match proto w !! name with
           | Some (VObj ps) => Done (tt, put_proto (<[name := VObj (f ps)]> (proto w)), [])
           | Some _ => Unmodelled
           | None =>
               if bool_decide (name ∈ prototype_functions)
               then Done (tt, put_funs (<[name := f (default ∅ (funs w !! name))]> (funs w)), [])
               else Throws
           end
  end.

(** [rooms[name][key] = v], [key] a socket id. *)
Definition rooms_set (name key : string) (v : Val) : M unit :=
  if bool_decide (key ∈ reserved) then unmodelled
  else rooms_update name (λ ps, <[key := v]> ps).

(** [delete rooms[name][key]], [key] a socket id. *)
Definition rooms_delete_key (name key : string) : M unit :=
  if bool_decide (key ∈ reserved) then unmodelled
  else rooms_update name (λ ps, delete key ps).

(** [Object.keys(rooms[name]).length]: the own enumerable properties; the
    built-in ones are not enumerable. *)
Definition rooms_keys_length (name : string) : M nat := λ w,
  match rooms_at w name with
  | Some (VObj ps) => Done (size ps, w, [])
  | Some VProto => Done (size (proto w), w, [])
  | Some (VFun f) => Done (size (default ∅ (funs w !! f)), w, [])
  | Some (VStr _) | Some (VBool _) => Unmodelled
  | Some VNull | None => Throws
  end.

(** [delete rooms[name]]: only an own property of [rooms] goes. *)
Definition rooms_delete (name : string) : M unit := λ w,
  Done (tt, {| rooms := delete name (rooms w); proto := proto w;
               funs := funs w; currentRoom := currentRoom w;
               joined := joined w; issued := issued w |}, []).

(** [rooms[name]?.[key]]. *)
Definition rooms_get_in (name key : string) : M (option Val) := λ w,
  match rooms_at w name with
  | None | Some VNull => Done (None, w, [])
  | Some x =>
      match get_prop w x key with
      | Done v => Done (v, w, [])
      | Throws => Throws
      | Unmodelled => Unmodelled
      end
  end.

Definition set_video (b : bool) (v : Val) : option Val :=
  match v with
  | VObj q => Some (VObj (<["isVideoEnabled" := VBool b]> q))
  | _ => None
  end.

(** [rooms[name][key].isVideoEnabled = b].  The object [rooms[name][key]] is
    an own property of [rooms[name]] or one it inherits from
    [Object.prototype]; it is changed where it lives. *)
Definition rooms_set_video (name key : string) (b : bool) : M unit := λ w,
  let own : option (gmap string Val) :=
    match rooms_at w name with
    | Some (VObj ps) => Some ps
    | Some VProto => Some (proto w)
    | Some (VFun f) => Some (default ∅ (funs w !! f))
    | _ => None
    end in
  match own with
  | None => Unmodelled
  | Some ps =>
      match ps !! key with
      | Some v =>
          match set_video b v with
          | Some v' => rooms_update name (λ ps, <[key := v']> ps) w
          | None => Unmodelled
          end
      | None =>
          match rooms_at w name, proto w !! key with
          | Some (VObj _), Some v =>
              match set_video b v with
              | Some v' =>
                  Done (tt, {| rooms := rooms w; proto := <[key := v']> (proto w);
                               funs := funs w; currentRoom := currentRoom w;
                               joined := joined w; issued := issued w |}, [])
              | None => Unmodelled
              end
          | _, _ => Unmodelled
          end
      end
  end.

(** What JSON makes of [rooms[name]] as an event argument. *)
Definition rooms_json (name : string) : M (option (gmap string Val)) := λ w,
  match rooms_at w name with
  | Some (VObj ps) => Done (Some ps, w, [])
  | Some VProto => Done (Some (proto w), w, [])
  | Some (VFun _) | Some VNull | None => Done (None, w, [])
  | Some (VStr _) | Some (VBool _) => Unmodelled
  end.

(** ** Closure variable and transport *)

Definition get_currentRoom (c : string) : M (option string) := λ w,
  Done (default None (currentRoom w !! c), w, []).

Definition set_currentRoom (c room : string) : M unit := λ w,
  Done (tt, {| rooms := rooms w; proto := proto w; funs := funs w;
               currentRoom := <[c := Some room]> (currentRoom w);
               joined := joined w; issued := issued w |}, []).

(** [socket.join(room)]. *)
Definition socket_join (c room : string) : M unit := λ w,
  Done (tt, {| rooms := rooms w; proto := proto w; funs := funs w;
               currentRoom := currentRoom w;
               joined := <[c := {[room]} ∪ default ∅ (joined w !! c)]> (joined w);
               issued := issued w |}, []).

(** The sockets in the socket.io room [room]. *)
Definition group (w : World) (room : string) : gset string :=
  dom (filter (λ kv : string * gset string, room ∈ kv.2) (joined w)).

(** [socket.emit(msg)]: to the calling socket. *)
Definition socket_emit (c : string) (msg : Msg) : M unit := λ w,
  Done (tt, w, [(c, msg)]).

(** [socket.to(room).emit(msg)]: to the room, except the sockets in the room
    named by the caller's id: the caller itself, while it is connected, and
    whoever joined a room of that name. *)
Definition socket_to_emit (c room : string) (msg : Msg) : M unit := λ w,
  Done (tt, w, (λ c', (c', msg)) <$> elements (group w room ∖ group w c)).

(** [io.to(id).emit(msg)]: to the room named [id]. *)
Definition io_to_emit (id : string) (msg : Msg) : M unit := λ w,
  Done (tt, w, (λ c', (c', msg)) <$> elements (group w id)).

(** ** The handlers *)

(** A new socket: [currentRoom = null], and it is in the room of its id. *)
Definition on_connection (c : string) : M unit := λ w,
  Done (tt, {| rooms := rooms w; proto := proto w; funs := funs w;
               currentRoom := <[c := None]> (currentRoom w);
               joined := <[c := {[c]}]> (joined w);
               issued := {[c]} ∪ issued w |}, []).

Definition new_peer (name : string) : Val :=
  VObj (<["username" := VStr name]> (<["isVideoEnabled" := VBool false]> ∅)).

(** [socket.on("register", (username, roomId) => ...)]. *)
Definition on_register (c name : string) (roomId : option string) : M unit :=
  let room := or_default roomId in
  set_currentRoom c room >>
  socket_join c room >>
  (let* r := rooms_get room in
   if truthy_val r then ret tt else rooms_init room) >>
  rooms_set room c (new_peer name) >>
  (let* snapshot := rooms_json room in
   socket_emit c (Introduction snapshot)) >>
  socket_to_emit c room (NewUserConnected c name).

(** [socket.on("signal", (to, from, data) => ...)]. *)
Definition on_signal (c to from : string) (data : Payload) : M unit :=
  let* cur := get_currentRoom c in
  match cur with
  | Some r =>
      if truthy r then
        let* found := rooms_get_in r to in
        if truthy_val found then io_to_emit to (SignalMsg to from data)
        else ret tt
      else ret tt
  | None => ret tt
  end.

(** [socket.on("user-toggle-video", isEnabled => ...)]. *)
Definition on_toggle_video (c : string) (isEnabled : bool) : M unit :=
  let* cur := get_currentRoom c in
  match cur with
  | Some r =>
      if truthy r then
        let* found := rooms_get_in r c in
        if truthy_val found then
          rooms_set_video r c isEnabled >>
          socket_to_emit c r (UserToggledVideo c isEnabled)
        else ret tt
      else ret tt
  | None => ret tt
  end.

(** [socket.on("disconnect", () => ...)]. *)
Definition on_disconnect (c : string) : M unit :=
  let* cur := get_currentRoom c in
  match cur with
  | Some r =>
      if truthy r then
        let* x := rooms_get r in
        if truthy_val x then
          rooms_delete_key r c >>
          (let* n := rooms_keys_length r in
           if Nat.eqb n 0 then rooms_delete r else ret tt) >>
          socket_to_emit c r (UserDisconnected c)
        else ret tt
      else ret tt
  | None => ret tt
  end.

Definition leave_all (c : string) : M unit := λ w,
  Done (tt, {| rooms := rooms w; proto := proto w; funs := funs w;
               currentRoom := currentRoom w;
               joined := delete c (joined w);
               issued := issued w |}, []).

Definition close (c : string) : M unit := λ w,
  Done (tt, {| rooms := rooms w; proto := proto w; funs := funs w;
               currentRoom := delete c (currentRoom w);
               joined := joined w;
               issued := issued w |}, []).

(** ** Events and runs *)

Definition handle (e : Event) : M unit :=
  match e with
  | Connect c => on_connection c
  | Register c name roomId => on_register c name roomId
  | Signal c to from data => on_signal c to from data
  | ToggleVideo c isEnabled => on_toggle_video c isEnabled
  | Disconnect c => leave_all c >> on_disconnect c >> close c
  end.

Definition live (w : World) (c : string) : Prop := c ∈ dom (currentRoom w).

Global Instance js_live_dec w c : Decision (live w c).
Proof. unfold live. apply _. Defined.

(** A new socket gets a fresh id that is no reserved name; every other event
    comes from a live socket. *)
Definition enabled (w : World) (e : Event) : Prop :=
  match e with
  | Connect c => (c ∉ issued w) ∧ (c ∉ reserved)
  | Register c _ _ | Signal c _ _ _ | ToggleVideo c _ | Disconnect c => live w c
  end.

Global Instance js_enabled_dec w e : Decision (enabled w e).
Proof. destruct e; simpl; unfold live; apply _. Defined.

Definition step (w : World) (e : Event) : Outcome (World * list Delivery) :=
  match handle e w with
  | Done (_, w', out) => Done (w', out)
  | Throws => Throws
  | Unmodelled => Unmodelled
  end.

Fixpoint run (w : World) (t : list Event) : option World :=
  match t with
  | [] => Some w
  | e :: t' =>
      if decide (enabled w e) then
        match step w e with
        | Done (w', _) => run w' t'
        | _ => None
        end
      else None
  end.

Inductive reachable : World → Prop :=
| reach_init : reachable init
| reach_step w e w' out :
    reachable w → enabled w e → step w e = Done (w', out) → reachable w'.

Lemma js_run_reachable_from w t w' :
  reachable w → run w t = Some w' → reachable w'.
Proof.
  revert w. induction t as [| e t IH]; intros w Hw; simpl.
  - by intros [= <-].
  - case_decide as He; [| done].
    destruct (step w e) as [[w1 out] | |] eqn:Hs; [| done | done].
    apply IH. by eapply reach_step.
Qed.

Lemma js_run_reachable t w : run init t = Some w → reachable w.
Proof. apply js_run_reachable_from, reach_init. Qed.

(** The entries the registry shows for room [name]: the own properties of
    the room object, when [rooms] has one. *)
Definition members (w : World) (name : string) : gmap string Val :=
  match rooms w !! name with
  | Some (VObj ps) => ps
  | _ => ∅
  end.

(** ** Runs on which the program and its documentation part ways *)

Definition Z : string := "sockZ".

Definition alice : Val := new_peer "alice".
Definition bob : Val := new_peer "bob".
Definition carol : Val := new_peer "carol".
Definition zed : Val := new_peer "zed".

(** A and B in "room1"; C registers into a room it names after B's id. *)
Definition listener_trace : list Event :=
  [Connect A; Register A "alice" (Some "room1");
   Connect B; Register B "bob" (Some "room1");
   Connect C; Register C "carol" (Some B)].

Definition listener_world : World :=
  Eval vm_compute in default init (run init listener_trace).

Lemma listener_world_run : run init listener_trace = Some listener_world.
Proof. vm_compute. reflexivity. Qed.

(** A moved from "room1" to "room2" and left; then B joined "room1". *)
Definition ghost_trace : list Event :=
  [Connect A; Register A "alice" (Some "room1");
   Register A "alice" (Some "room2"); Disconnect A;
   Connect B; Register B "bob" (Some "room1")].

Definition ghost_world : World :=
  Eval vm_compute in default init (run init ghost_trace).

Lemma ghost_world_run : run init ghost_trace = Some ghost_world.
Proof. vm_compute. reflexivity. Qed.

(** Z registered into "__proto__", A into "room1". *)
Definition polluted_trace : list Event :=
  [Connect Z; Register Z "zed" (Some "__proto__");
   Connect A; Register A "alice" (Some "room1")].

Definition polluted_world : World :=
  Eval vm_compute in default init (run init polluted_trace).

Lemma polluted_world_run : run init polluted_trace = Some polluted_world.
Proof. vm_compute. reflexivity. Qed.

(** C1. A [signal] is not always delivered to [to] alone, nor whenever [to]
    is an entry of the caller's room.
    - C registered into a room it named after B's id: A's signal to B, both
      in "room1", is delivered to B and to C, who is in no room with them.
    - A's entry stayed in "room1" after A moved on and left: B's signal to A
      passes the guard and is delivered to nobody.
    - Z registered into "__proto__": A's signal to Z passes the guard and is
      delivered, although Z is no member of A's room. *)
Theorem C1_signal_overheard_lost_or_misrouted :
  (reachable listener_world ∧
   (C ∉ dom (members listener_world "room1")) ∧
   step listener_world (Signal A B A "offer") =
     Done (listener_world,
           [(C, SignalMsg B A "offer"); (B, SignalMsg B A "offer")])) ∧
  (reachable ghost_world ∧
   ¬ live ghost_world A ∧
   A ∈ dom (members ghost_world "room1") ∧
   step ghost_world (Signal B A B "offer") = Done (ghost_world, [])) ∧
  (reachable polluted_world ∧
   (Z ∉ dom (members polluted_world "room1")) ∧
   currentRoom polluted_world !! A = Some (Some "room1") ∧
   step polluted_world (Signal A Z A "offer") =
     Done (polluted_world, [(Z, SignalMsg Z A "offer")])).
Proof.
  split; [| split].
  - split; [exact (js_run_reachable _ _ listener_world_run) |].
    split; [| vm_compute; reflexivity].
    apply (bool_decide_unpack _). vm_compute. exact I.
  - split; [exact (js_run_reachable _ _ ghost_world_run) |].
    split; [| split; [| vm_compute; reflexivity]];
      apply (bool_decide_unpack _); vm_compute; exact I.
  - split; [exact (js_run_reachable _ _ polluted_world_run) |].
    split; [| split; vm_compute; reflexivity].
    apply (bool_decide_unpack _). vm_compute. exact I.
Qed.

(** A connected, nothing else. *)
Definition lone_world : World :=
  Eval vm_compute in default init (run init [Connect A]).

Lemma lone_world_run : run init [Connect A] = Some lone_world.
Proof. vm_compute. reflexivity. Qed.

(** C2. A [register] with [roomId = "constructor"] finds the inherited
    [Object] function under [rooms["constructor"]]: no room is created, the
    entry is stored on that function, and the [introduction] sent to the
    caller carries [null], not a member map with the caller's entry. *)
Theorem C2_introduction_null_for_constructor :
  reachable lone_world ∧
  ∃ w', step lone_world (Register A "alice" (Some "constructor")) =
          Done (w', [(A, Introduction None)]) ∧
        rooms w' = ∅ ∧
        funs w' !! "constructor" = Some {[A := alice]} ∧
        currentRoom w' !! A = Some (Some "constructor").
Proof.
  split; [exact (js_run_reachable _ _ lone_world_run) |].
  eexists. split; [vm_compute; reflexivity |].
  split; [| split]; vm_compute; reflexivity.
Qed.

(** A and B connected, neither registered. *)
Definition idle_world : World :=
  Eval vm_compute in default init (run init [Connect A; Connect B]).

Lemma idle_world_run : run init [Connect A; Connect B] = Some idle_world.
Proof. vm_compute. reflexivity. Qed.

(** C3. The recipients of [newUserConnected] and the effect on the registry
    are not always those of the room.
    - A registers into a room it names after B's id, B being connected and
      not registered: B, who is in no room, is sent [newUserConnected].
    - A registers with [roomId = "__proto__"]: no room is created; the entry
      goes to [Object.prototype]. *)
Theorem C3_register_notifies_outsider_or_creates_no_room :
  (reachable idle_world ∧
   currentRoom idle_world !! B = Some None ∧
   ∃ w', step idle_world (Register A "alice" (Some B)) =
           Done (w', [(A, Introduction (Some {[A := alice]}));
                      (B, NewUserConnected A "alice")]) ∧
         B ∉ dom (members w' B)) ∧
  (reachable lone_world ∧
   ∃ w', step lone_world (Register A "alice" (Some "__proto__")) =
           Done (w', [(A, Introduction (Some {[A := alice]}))]) ∧
         rooms w' = ∅ ∧ proto w' = {[A := alice]}).
Proof.
  split.
  - split; [exact (js_run_reachable _ _ idle_world_run) |].
    split; [reflexivity |].
    eexists. split; [vm_compute; reflexivity |].
    apply (bool_decide_unpack _). vm_compute. exact I.
  - split; [exact (js_run_reachable _ _ lone_world_run) |].
    eexists. split; [vm_compute; reflexivity |].
    split; vm_compute; reflexivity.
Qed.

(** A registered into "room1" and then into "room2". *)
Definition moved_trace : list Event :=
  [Connect A; Register A "alice" (Some "room1");
   Register A "alice" (Some "room2")].

Definition moved_world : World :=
  Eval vm_compute in default init (run init moved_trace).

Lemma moved_world_run : run init moved_trace = Some moved_world.
Proof. vm_compute. reflexivity. Qed.

(** C4. A is the only member of "room1" and of "room2".  When A
    disconnects, "room2" is removed but "room1" stays in the registry, with
    the entry of a connection that is gone: its last member has left and the
    room is still there. *)
Theorem C4_room_survives_its_last_member :
  reachable moved_world ∧
  dom (members moved_world "room1") = {[A]} ∧
  ∃ w', step moved_world (Disconnect A) = Done (w', []) ∧
        ¬ live w' A ∧
        rooms w' !! "room2" = None ∧
        rooms w' !! "room1" = Some (VObj {[A := alice]}).
Proof.
  split; [exact (js_run_reachable _ _ moved_world_run) |].
  split; [vm_compute; reflexivity |].
  eexists. split; [vm_compute; reflexivity |].
  split; [| split; vm_compute; reflexivity].
  intros Hl. apply (bool_decide_pack _) in Hl. vm_compute in Hl. exact Hl.
Qed.

(** A registered into a room named after B's id; B is connected and has not
    registered. *)
Definition named_trace : list Event :=
  [Connect A; Connect B; Register A "alice" (Some B)].

Definition named_world : World :=
  Eval vm_compute in default init (run init named_trace).

Lemma named_world_run : run init named_trace = Some named_world.
Proof. vm_compute. reflexivity. Qed.

(** C6. A is the only member of its room, which is named after B's id.  When
    A disconnects the room is removed from the registry, and
    [userDisconnected] is nevertheless delivered: to B, who sits in the
    socket.io room of that name. *)
Theorem C6_last_member_still_notifies :
  reachable named_world ∧
  currentRoom named_world !! A = Some (Some B) ∧
  dom (members named_world B) = {[A]} ∧
  ∃ w', step named_world (Disconnect A) = Done (w', [(B, UserDisconnected A)]) ∧
        rooms w' !! B = None.
Proof.
  split; [exact (js_run_reachable _ _ named_world_run) |].
  split; [reflexivity |]. split; [vm_compute; reflexivity |].
  eexists. split; vm_compute; reflexivity.
Qed.

(** A registered into "constructor" and switched its camera on; B connected. *)
Definition camera_trace : list Event :=
  [Connect A; Register A "alice" (Some "constructor"); ToggleVideo A true;
   Connect B].

Definition camera_world : World :=
  Eval vm_compute in default init (run init camera_trace).

Lemma camera_world_run : run init camera_trace = Some camera_world.
Proof. vm_compute. reflexivity. Qed.

(** C7. [user-toggle-video] does not always reach the other members of the
    room and them only, and a later [introduction] does not always show it.
    - A's room is named after B's id: [user-toggled-video] is sent to B, who
      has no entry in that room (or any other).
    - A toggled in the room "constructor": B, registering there afterwards,
      gets [null] as its introduction. *)
Theorem C7_toggle_reaches_outsider_or_is_not_shown :
  (reachable named_world ∧
   (B ∉ dom (members named_world B)) ∧
   currentRoom named_world !! B = Some None ∧
   ∃ w', step named_world (ToggleVideo A true) =
           Done (w', [(B, UserToggledVideo A true)])) ∧
  (reachable camera_world ∧
   ∃ w', step camera_world (Register B "bob" (Some "constructor")) =
           Done (w', [(B, Introduction None); (A, NewUserConnected B "bob")])).
Proof.
  split.
  - split; [exact (js_run_reachable _ _ named_world_run) |].
    split; [apply (bool_decide_unpack _); vm_compute; exact I |].
    split; [reflexivity |].
    eexists. vm_compute. reflexivity.
  - split; [exact (js_run_reachable _ _ camera_world_run) |].
    eexists. vm_compute. reflexivity.
Qed.

(** Z registered into "__proto__", C into the room named after Z's id, then
    Z left. *)
Definition orphan_trace : list Event :=
  [Connect Z; Register Z "zed" (Some "__proto__");
   Connect C; Register C "carol" (Some Z); Disconnect Z].

Definition orphan_world : World :=
  Eval vm_compute in default init (run init orphan_trace).

Lemma orphan_world_run : run init orphan_trace = Some orphan_world.
Proof. vm_compute. reflexivity. Qed.

(** C10. C is connected and its recorded current room is the room named
    after Z's id, yet [rooms] has no such room and [rooms[currentRoom]] is
    [undefined]: C's entry was stored on Z's peer object, reached through
    [Object.prototype], and went away with it when Z disconnected.  The
    guard of [user-toggle-video] and the room lookup of [disconnect] both
    fail for C. *)
Theorem C10_current_room_can_vanish :
  reachable orphan_world ∧
  live orphan_world C ∧
  currentRoom orphan_world !! C = Some (Some Z) ∧
  rooms orphan_world = ∅ ∧
  rooms_at orphan_world Z = None ∧
  step orphan_world (ToggleVideo C true) = Done (orphan_world, []) ∧
  ∃ w', step orphan_world (Disconnect C) = Done (w', []).
Proof.
  split; [exact (js_run_reachable _ _ orphan_world_run) |].
  split; [apply (bool_decide_unpack _); vm_compute; exact I |].
  split; [reflexivity |]. split; [vm_compute; reflexivity |].
  split; [vm_compute; reflexivity |]. split; [vm_compute; reflexivity |].
  eexists. vm_compute. reflexivity.
Qed.

End Js.

(** * The two readings agree on ordinary names

    Every world of the first part has a counterpart in [Js]: the same
    registry written with objects, nothing stored on [Object.prototype] or
    on its functions, and every connection also in the socket.io room of its
    own id.  As long as room names are ordinary (none inherited from
    [Object.prototype], none equal to a socket id) the handlers of [Js] take
    that counterpart where the handlers of the first part take the world,
    and deliver the same messages, except that a signal addressed to a
    closed connection reaches nobody. *)

(** The names that [rooms[name]] finds on [Object.prototype]: the
    [__proto__] accessor and the built-in functions. *)
Definition inherited : list string := "__proto__" :: Js.prototype_functions.

(** A [Peer] as the object literal the register handler creates. *)
Definition peer_val (p : Peer) : Js.Val :=
  Js.VObj (<["username" := Js.VStr (username p)]>
             (<["isVideoEnabled" := Js.VBool (isVideoEnabled p)]> ∅)).

(** A member map as a room object. *)
Definition room_val (m : gmap string Peer) : Js.Val := Js.VObj (peer_val <$> m).

(** A message of the first part as a message of [Js]. *)
Definition msg_val (m : Msg) : Js.Msg :=
  match m with
  | Introduction o => Js.Introduction (fmap (M := gmap string) peer_val <$> o)
  | NewUserConnected id name => Js.NewUserConnected id name
  | SignalMsg to from data => Js.SignalMsg to from data
  | UserToggledVideo id b => Js.UserToggledVideo id b
  | UserDisconnected id => Js.UserDisconnected id
  end.

(** The counterpart of a world: [Object.prototype] untouched, and every
    connection in the room of its own id besides the groups it joined. *)
Definition embed (w : World) : Js.World :=
  {| Js.rooms := room_val <$> rooms w;
     Js.proto := ∅;
     Js.funs := ∅;
     Js.currentRoom := currentRoom w;
     Js.joined := map_imap (λ c gs, Some ({[c]} ∪ gs)) (joined w);
     Js.issued := issued w |}.

(** What the transport delivers of [out]: a message for a closed connection
    is dropped. *)
Definition relay (w : World) (out : list Delivery) : list Js.Delivery :=
  (λ d, (d.1, msg_val d.2)) <$> filter (λ d, live w d.1) out.

(** No room is named like something [Object.prototype] holds or like a
    socket id, and no socket id is a reserved name. *)
Record Plain (w : World) : Prop := {
  plain_rooms : ∀ r, r ∈ dom (rooms w) → (r ∉ inherited) ∧ (r ∉ issued w);
  plain_ids : ∀ c, c ∈ issued w → c ∉ Js.reserved
}.

(** Events that keep names ordinary. *)
Definition plain_event (w : World) (e : Event) : Prop :=
  match e with
  | Connect c => (c ∉ Js.reserved) ∧ (c ∉ dom (rooms w))
  | Register _ _ roomId =>
      (or_default roomId ∉ inherited) ∧ (or_default roomId ∉ issued w)
  | _ => True
  end.

Lemma inherited_reserved k : k ∈ inherited → k ∈ Js.reserved.
Proof.
  unfold inherited, Js.reserved. rewrite !elem_of_cons, elem_of_app.
  intros [-> | Hk]; tauto.
Qed.

Lemma Plain_init : Plain init.
Proof. split; simpl; set_solver. Qed.

Lemma Plain_step w e w' out :
  Inv w → Plain w → enabled w e → plain_event w e →
  step w e = Ok (w', out) → Plain w'.
Proof.
  intros HI [HP1 HP2] He Hpe.
  assert (∀ rs c, (∀ r, r ∈ dom rs → r ∈ dom (rooms w)) →
            Plain (dropped rs c w)) as Hdrop.
  { intros rs c Hsub. split; simpl; [| done]. intros r Hr. by apply HP1, Hsub. }
  destruct e as [c | c name roomId | c to from data | c b | c]; simpl in *.
  - rewrite step_connect. intros [= <- _]. destruct Hpe as [Hr Hd].
    split; simpl.
    + intros r Hin. destruct (HP1 r Hin). split; [done |]. set_solver.
    + intros c' [->%elem_of_singleton | Hc']%elem_of_union; [done |].
      by apply HP2.
  - rewrite step_register. intros [= <- _]. destruct Hpe as [Hr Hi].
    split; simpl; [| done]. intros r. rewrite dom_insert_L.
    intros [->%elem_of_singleton | Hin]%elem_of_union; [done |]. by apply HP1.
  - rewrite step_signal. by intros [= <- _].
  - destruct (guard w c c) eqn:G.
    + apply guard_true in G as (r & m & Hc & Hr & Hm & [p Hp]).
      rewrite (step_toggle_hit w c b r m p) by done.
      intros [= <- _]. split; simpl; [| done]. intros r'.
      rewrite dom_insert_L. apply elem_of_dom_2 in Hm.
      intros Hin. apply HP1. set_solver.
    + rewrite step_toggle_miss by done. by intros [= <- _].
  - destruct (currentRoom w !! c) as [[r |] |] eqn:Hc.
    + destruct (inv_current w HI c r Hc) as [Hr Hin].
      apply Inv_room_lookup in Hin as (m & Hm & _).
      rewrite (step_disconnect_hit w c r m) by done.
      intros [= <- _]. apply Hdrop. intros r'. apply elem_of_dom_2 in Hm.
      case_decide; [rewrite dom_delete_L | rewrite dom_insert_L]; set_solver.
    + rewrite step_disconnect_miss by (intros r; rewrite Hc; congruence).
      intros [= <- _]. by apply Hdrop.
    + rewrite step_disconnect_miss by (intros r; rewrite Hc; congruence).
      intros [= <- _]. by apply Hdrop.
Qed.

(** ** The socket.io rooms of a counterpart *)

Lemma js_elem_of_group jw room c :
  c ∈ Js.group jw room ↔ ∃ gs, Js.joined jw !! c = Some gs ∧ room ∈ gs.
Proof.
  unfold Js.group. rewrite elem_of_dom. split.
  - intros [gs Hgs]. apply map_lookup_filter_Some in Hgs as [? ?]. eauto.
  - intros (gs & ? & ?). exists gs. by apply map_lookup_filter_Some.
Qed.

Lemma embed_joined w c :
  Js.joined (embed w) !! c = (λ gs, {[c]} ∪ gs) <$> (joined w !! c).
Proof. simpl. rewrite map_lookup_imap. by destruct (joined w !! c). Qed.

(** The socket.io room of an ordinary room name holds the group of the
    first part. *)
Lemma embed_group_room w room :
  Inv w → room ∉ issued w → Js.group (embed w) room = group w room.
Proof.
  intros HI Hr. apply set_eq. intros c.
  rewrite js_elem_of_group, elem_of_group, embed_joined. split.
  - intros (gs' & Hgs & Hin). destruct (joined w !! c) as [gs |] eqn:E; [| done].
    simpl in Hgs. injection Hgs as <-. exists gs. split; [done |].
    apply elem_of_union in Hin as [->%elem_of_singleton | ?]; [| done].
    destruct Hr. apply (inv_live w HI). rewrite <- (inv_joined w HI).
    by apply elem_of_dom_2 in E.
  - intros (gs & Hgs & Hin). rewrite Hgs. simpl. eexists. split; [done |].
    set_solver.
Qed.

(** The socket.io room named by a socket id nobody registered under holds
    that socket, if it is connected. *)
Lemma embed_group_id w to :
  Inv w → to ∉ dom (rooms w) →
  Js.group (embed w) to = if decide (live w to) then {[to]} else ∅.
Proof.
  intros HI Hto. apply set_eq. intros c.
  rewrite js_elem_of_group, embed_joined.
  assert (∀ gs, joined w !! c = Some gs → to ∉ gs) as Hno.
  { intros gs Hgs Hin. apply (inv_group w HI c gs to Hgs) in Hin.
    apply Inv_room_lookup in Hin as (m & Hm & _). apply Hto.
    by apply elem_of_dom_2 in Hm. }
  case_decide as Hl; unfold live in Hl; rewrite <- (inv_joined w HI) in Hl.
  - rewrite elem_of_singleton. split.
    + intros (gs' & Hgs & Hin).
      destruct (joined w !! c) as [gs |] eqn:E; [| done].
      simpl in Hgs. injection Hgs as <-.
      apply elem_of_union in Hin as [->%elem_of_singleton | Hin]; [done |].
      by destruct (Hno gs eq_refl).
    + intros ->. apply elem_of_dom in Hl as [gs Hgs]. rewrite Hgs. simpl.
      eexists. split; [done |]. set_solver.
  - split; [| set_solver]. intros (gs' & Hgs & Hin).
    destruct (joined w !! c) as [gs |] eqn:E; [| done].
    simpl in Hgs. injection Hgs as <-.
    apply elem_of_union in Hin as [->%elem_of_singleton | Hin].
    + destruct Hl. by apply elem_of_dom_2 in E.
    + by destruct (Hno gs eq_refl).
Qed.

(** ** The primitives on a counterpart *)

(** A world of [Js] whose registry is the image of a dictionary registry and
    whose [Object.prototype] is untouched. *)
Definition clean_world (rs : gmap string (gmap string Peer))
    (cur : gmap string (option string)) (j : gmap string (gset string))
    (iss : gset string) : Js.World :=
  {| Js.rooms := room_val <$> rs; Js.proto := ∅; Js.funs := ∅;
     Js.currentRoom := cur; Js.joined := j; Js.issued := iss |}.

Lemma embed_clean w :
  embed w = clean_world (rooms w) (currentRoom w)
              (map_imap (λ c gs, Some ({[c]} ∪ gs)) (joined w)) (issued w).
Proof. done. Qed.

Lemma clean_rooms_at rs cur j iss name :
  name ∉ inherited →
  Js.rooms_at (clean_world rs cur j iss) name = room_val <$> (rs !! name).
Proof.
  intros Hn. unfold Js.rooms_at, Js.proto_own. simpl. rewrite lookup_fmap.
  destruct (rs !! name) as [m |]; simpl; [done |].
  unfold inherited in Hn. rewrite elem_of_cons in Hn.
  rewrite bool_decide_eq_false_2 by tauto. rewrite lookup_empty.
  rewrite bool_decide_eq_false_2 by tauto. done.
Qed.

Lemma clean_rooms_at_Some rs cur j iss name m :
  rs !! name = Some m →
  Js.rooms_at (clean_world rs cur j iss) name = Some (room_val m).
Proof.
  intros Hm. unfold Js.rooms_at. simpl. by rewrite lookup_fmap, Hm.
Qed.

Lemma clean_rooms_get rs cur j iss name :
  name ∉ inherited →
  Js.rooms_get name (clean_world rs cur j iss) =
  Js.Done (room_val <$> (rs !! name), clean_world rs cur j iss, []).
Proof. intros Hn. unfold Js.rooms_get. by rewrite clean_rooms_at. Qed.

Lemma clean_rooms_init rs cur j iss name :
  name ∉ inherited →
  Js.rooms_init name (clean_world rs cur j iss) =
  Js.Done (tt, clean_world (<[name := ∅]> rs) cur j iss, []).
Proof.
  intros Hn. unfold Js.rooms_init, clean_world. simpl.
  unfold inherited in Hn. rewrite elem_of_cons in Hn.
  rewrite bool_decide_eq_false_2 by tauto.
  rewrite fmap_insert. unfold room_val. by rewrite fmap_empty.
Qed.

Lemma clean_rooms_update rs cur j iss name m (f : gmap string Js.Val → gmap string Js.Val) m' :
  rs !! name = Some m → f (peer_val <$> m) = peer_val <$> m' →
  Js.rooms_update name f (clean_world rs cur j iss) =
  Js.Done (tt, clean_world (<[name := m']> rs) cur j iss, []).
Proof.
  intros Hm Hf. unfold Js.rooms_update, clean_world. simpl.
  rewrite lookup_fmap, Hm. simpl. by rewrite Hf, fmap_insert.
Qed.

Lemma clean_rooms_set rs cur j iss name m key p :
  key ∉ Js.reserved → rs !! name = Some m →
  Js.rooms_set name key (peer_val p) (clean_world rs cur j iss) =
  Js.Done (tt, clean_world (<[name := <[key := p]> m]> rs) cur j iss, []).
Proof.
  intros Hk Hm. unfold Js.rooms_set. rewrite bool_decide_eq_false_2 by done.
  apply (clean_rooms_update _ _ _ _ _ m); [done |]. by rewrite fmap_insert.
Qed.

Lemma clean_rooms_delete_key rs cur j iss name m key :
  key ∉ Js.reserved → rs !! name = Some m →
  Js.rooms_delete_key name key (clean_world rs cur j iss) =
  Js.Done (tt, clean_world (<[name := delete key m]> rs) cur j iss, []).
Proof.
  intros Hk Hm. unfold Js.rooms_delete_key.
  rewrite bool_decide_eq_false_2 by done.
  apply (clean_rooms_update _ _ _ _ _ m); [done |]. by rewrite fmap_delete.
Qed.

Lemma clean_rooms_keys_length rs cur j iss name m :
  rs !! name = Some m →
  Js.rooms_keys_length name (clean_world rs cur j iss) =
  Js.Done (size m, clean_world rs cur j iss, []).
Proof.
  intros Hm. unfold Js.rooms_keys_length.
  rewrite (clean_rooms_at_Some _ _ _ _ _ m) by done.
  unfold room_val. by rewrite map_size_fmap.
Qed.

Lemma clean_rooms_delete rs cur j iss name :
  Js.rooms_delete name (clean_world rs cur j iss) =
  Js.Done (tt, clean_world (delete name rs) cur j iss, []).
Proof. unfold Js.rooms_delete, clean_world. simpl. by rewrite fmap_delete. Qed.

Lemma clean_rooms_json rs cur j iss name m :
  rs !! name = Some m →
  Js.rooms_json name (clean_world rs cur j iss) =
  Js.Done (Some (peer_val <$> m), clean_world rs cur j iss, []).
Proof.
  intros Hm. unfold Js.rooms_json.
  by rewrite (clean_rooms_at_Some _ _ _ _ _ m).
Qed.

Lemma clean_get_prop rs cur j iss m k :
  k ∉ inherited →
  Js.get_prop (clean_world rs cur j iss) (room_val m) k =
  Js.Done (peer_val <$> (m !! k)).
Proof.
  intros Hk. unfold Js.get_prop, room_val, Js.proto_own. simpl.
  rewrite lookup_fmap. destruct (m !! k) as [p |]; simpl; [done |].
  unfold inherited in Hk. rewrite elem_of_cons in Hk.
  rewrite bool_decide_eq_false_2 by tauto. rewrite lookup_empty.
  rewrite bool_decide_eq_false_2 by tauto. done.
Qed.

Lemma clean_get_prop_inherited rs cur j iss m k :
  k ∈ inherited →
  ∃ v, Js.get_prop (clean_world rs cur j iss) (room_val m) k = Js.Done (Some v) ∧
       Js.truthy_val (Some v) = true.
Proof.
  intros Hk. unfold Js.get_prop, room_val, Js.proto_own. simpl.
  rewrite lookup_fmap. destruct (m !! k) as [p |]; simpl; [by eexists |].
  unfold inherited in Hk. rewrite elem_of_cons in Hk.
  case_bool_decide; [by eexists |]. rewrite lookup_empty.
  rewrite bool_decide_eq_true_2 by tauto. by eexists.
Qed.

Lemma clean_rooms_get_in rs cur j iss name m k :
  rs !! name = Some m → k ∉ inherited →
  Js.rooms_get_in name k (clean_world rs cur j iss) =
  Js.Done (peer_val <$> (m !! k), clean_world rs cur j iss, []).
Proof.
  intros Hm Hk. unfold Js.rooms_get_in.
  rewrite (clean_rooms_at_Some _ _ _ _ _ m) by done.
  unfold room_val at 1. fold (room_val m). by rewrite clean_get_prop.
Qed.

Lemma clean_rooms_get_in_inherited rs cur j iss name m k :
  rs !! name = Some m → k ∈ inherited →
  ∃ v, Js.rooms_get_in name k (clean_world rs cur j iss) =
         Js.Done (Some v, clean_world rs cur j iss, []) ∧
       Js.truthy_val (Some v) = true.
Proof.
  intros Hm Hk. unfold Js.rooms_get_in.
  rewrite (clean_rooms_at_Some _ _ _ _ _ m) by done.
  destruct (clean_get_prop_inherited rs cur j iss m k Hk) as (v & Hv & Ht).
  exists v. unfold room_val at 1. fold (room_val m). by rewrite Hv.
Qed.

Lemma clean_rooms_set_video rs cur j iss name m key p b :
  rs !! name = Some m → m !! key = Some p →
  Js.rooms_set_video name key b (clean_world rs cur j iss) =
  Js.Done (tt, clean_world
                 (<[name := <[key := {| username := username p;
                                        isVideoEnabled := b |}]> m]> rs)
                 cur j iss, []).
Proof.
  intros Hm Hp. unfold Js.rooms_set_video.
  rewrite (clean_rooms_at_Some _ _ _ _ _ m) by done.
  unfold room_val. rewrite lookup_fmap, Hp. simpl.
  apply (clean_rooms_update _ _ _ _ _ m); [done |]. by rewrite fmap_insert.
Qed.

(** ** The handlers on a counterpart *)

Lemma embed_except w c room :
  Inv w → Plain w → room ∉ issued w → c ∈ issued w →
  Js.group (embed w) room ∖ Js.group (embed w) c = group w room ∖ {[c]}.
Proof.
  intros HI HP Hr Hc.
  rewrite embed_group_room by done.
  rewrite embed_group_id; [| done |].
  - case_decide as Hl; [done |].
    assert (c ∉ group w room) as Hn; [| set_solver].
    rewrite elem_of_group. intros (gs & Hgs & _). apply Hl. unfold live.
    rewrite <- (inv_joined w HI). by apply elem_of_dom_2 in Hgs.
  - intros Hin. by destruct (plain_rooms w HP c Hin).
Qed.

Lemma filter_Forall {X} (P : X → Prop) `{∀ x, Decision (P x)} (l : list X) :
  Forall P l → filter P l = l.
Proof.
  induction 1 as [| x l Hx _ IH]; [done |].
  by rewrite filter_cons_True, IH.
Qed.

Lemma relay_broadcast w0 w c room msg :
  (∀ c', c' ∈ group w room → c' ≠ c → live w0 c') →
  relay w0 (broadcast w c room msg) =
  (λ c', (c', msg_val msg)) <$> elements (group w room ∖ {[c]}).
Proof.
  intros Hl. unfold relay, broadcast. rewrite filter_Forall.
  - by rewrite <- list_fmap_compose.
  - apply Forall_forall. intros [c' m'] (x & [= -> ->] & Hx)%list_elem_of_fmap.
    apply elem_of_elements in Hx. simpl. apply Hl; set_solver.
Qed.

Lemma group_live w room c : Inv w → c ∈ group w room → live w c.
Proof.
  intros HI (gs & Hgs & _)%elem_of_group. unfold live.
  rewrite <- (inv_joined w HI). by apply elem_of_dom_2 in Hgs.
Qed.

Lemma live_issued w c : Inv w → live w c → c ∈ issued w.
Proof. intros HI Hl. by apply (inv_live w HI). Qed.

Lemma live_not_reserved w c : Inv w → Plain w → live w c → c ∉ Js.reserved.
Proof. intros HI HP Hl. by apply (plain_ids w HP), live_issued. Qed.

Lemma sim_connect w c :
  Js.step (embed w) (Connect c) =
  Js.Done (embed {| rooms := rooms w;
                    currentRoom := <[c := None]> (currentRoom w);
                    joined := <[c := ∅]> (joined w);
                    issued := {[c]} ∪ issued w |}, []).
Proof.
  unfold Js.step, Js.handle, Js.on_connection, embed. simpl.
  rewrite (map_imap_insert_Some _ _ _ _ ({[c]} ∪ ∅)) by done.
  by rewrite union_empty_r_L.
Qed.

Lemma embed_joined_registered w c room :
  Inv w → live w c →
  <[c := {[room]} ∪ default ∅ (Js.joined (embed w) !! c)]> (Js.joined (embed w))
  = map_imap (λ c gs, Some ({[c]} ∪ gs))
      (<[c := {[room]} ∪ default ∅ (joined w !! c)]> (joined w)).
Proof.
  intros HI Hl. unfold live in Hl. rewrite <- (inv_joined w HI) in Hl.
  apply elem_of_dom in Hl as [gs Hgs]. rewrite embed_joined, Hgs. simpl.
  rewrite (map_imap_insert_Some _ _ _ _ ({[c]} ∪ ({[room]} ∪ gs))) by done.
  f_equal. set_solver.
Qed.

Lemma js_bind_done {X Y} (m : Js.M X) (f : X → Js.M Y) w a w1 o1 b w2 o2 :
  m w = Js.Done (a, w1, o1) → f a w1 = Js.Done (b, w2, o2) →
  Js.bind m f w = Js.Done (b, w2, (o1 ++ o2)%list).
Proof. intros Hm Hf. unfold Js.bind. by rewrite Hm, Hf. Qed.

Lemma clean_set_currentRoom rs cur j iss c room :
  Js.set_currentRoom c room (clean_world rs cur j iss) =
  Js.Done (tt, clean_world rs (<[c := Some room]> cur) j iss, []).
Proof. done. Qed.

Lemma clean_socket_join rs cur j iss c room :
  Js.socket_join c room (clean_world rs cur j iss) =
  Js.Done (tt, clean_world rs cur (<[c := {[room]} ∪ default ∅ (j !! c)]> j) iss, []).
Proof. done. Qed.

Lemma clean_get_currentRoom rs cur j iss c :
  Js.get_currentRoom c (clean_world rs cur j iss) =
  Js.Done (default None (cur !! c), clean_world rs cur j iss, []).
Proof. done. Qed.

Lemma clean_leave_all rs cur j iss c :
  Js.leave_all c (clean_world rs cur j iss) =
  Js.Done (tt, clean_world rs cur (delete c j) iss, []).
Proof. done. Qed.

Lemma clean_close rs cur j iss c :
  Js.close c (clean_world rs cur j iss) =
  Js.Done (tt, clean_world rs (delete c cur) j iss, []).
Proof. done. Qed.

(** The room exists once the register handler has passed its test. *)
Lemma clean_ensure_room rs cur j iss room :
  room ∉ inherited →
  Js.bind (Js.rooms_get room)
    (λ r, if Js.truthy_val r then Js.ret tt else Js.rooms_init room)
    (clean_world rs cur j iss) =
  Js.Done (tt, clean_world (<[room := default ∅ (rs !! room)]> rs) cur j iss, []).
Proof.
  intros Hr. unfold Js.bind. rewrite clean_rooms_get by done.
  destruct (rs !! room) as [m |] eqn:E; simpl.
  - by rewrite insert_id.
  - by rewrite clean_rooms_init.
Qed.

Lemma clean_on_register rs cur j iss c name roomId :
  or_default roomId ∉ inherited → c ∉ Js.reserved →
  let room := or_default roomId in
  let m := <[c := {| username := name; isVideoEnabled := false |}]>
             (default ∅ (rs !! room)) in
  let W := clean_world (<[room := m]> rs) (<[c := Some room]> cur)
             (<[c := {[room]} ∪ default ∅ (j !! c)]> j) iss in
  Js.on_register c name roomId (clean_world rs cur j iss) =
  Js.Done (tt, W,
           (c, Js.Introduction (Some (peer_val <$> m)))
           :: ((λ c', (c', Js.NewUserConnected c name)) <$>
               elements (Js.group W room ∖ Js.group W c))).
Proof.
  intros Hr Hc room m W. unfold Js.on_register. fold room.
  etrans.
  { eapply js_bind_done; [apply clean_set_currentRoom |].
    eapply js_bind_done; [apply clean_socket_join |].
    eapply js_bind_done; [by apply clean_ensure_room |].
    eapply js_bind_done.
    { apply (clean_rooms_set _ _ _ _ _ (default ∅ (rs !! room))
               _ {| username := name; isVideoEnabled := false |}); [done |].
      apply lookup_insert_eq. }
    eapply js_bind_done.
    { eapply js_bind_done; [apply clean_rooms_json, lookup_insert_eq |].
      reflexivity. }
    reflexivity. }
  simpl. unfold W, m. by rewrite !insert_insert_eq.
Qed.

Lemma clean_on_signal_unregistered rs cur j iss c to from data :
  default None (cur !! c) = None →
  Js.on_signal c to from data (clean_world rs cur j iss) =
  Js.Done (tt, clean_world rs cur j iss, []).
Proof.
  intros Hc. unfold Js.on_signal, Js.bind.
  by rewrite clean_get_currentRoom, Hc.
Qed.

Lemma clean_on_signal rs cur j iss c to from data r m :
  cur !! c = Some (Some r) → r ≠ EmptyString → rs !! r = Some m →
  let W := clean_world rs cur j iss in
  Js.on_signal c to from data W =
  Js.Done (tt, W,
           if bool_decide (is_Some (m !! to) ∨ to ∈ inherited)
           then (λ c', (c', Js.SignalMsg to from data)) <$> elements (Js.group W to)
           else []).
Proof.
  intros Hc Hr Hm W. subst W. unfold Js.on_signal, Js.bind.
  rewrite clean_get_currentRoom, Hc. simpl.
  apply truthy_true in Hr. rewrite Hr.
  destruct (decide (to ∈ inherited)) as [Hto | Hto].
  - destruct (clean_rooms_get_in_inherited rs cur j iss r m to Hm Hto)
      as (v & -> & ->).
    rewrite bool_decide_eq_true_2 by by right. done.
  - rewrite (clean_rooms_get_in rs cur j iss r m to) by done.
    destruct (m !! to) as [p |] eqn:Hp; simpl.
    + done.
    + rewrite bool_decide_eq_false_2; [done |].
      intros [[? ?] | ?]; done.
Qed.

Lemma clean_on_toggle_unregistered rs cur j iss c b :
  default None (cur !! c) = None →
  Js.on_toggle_video c b (clean_world rs cur j iss) =
  Js.Done (tt, clean_world rs cur j iss, []).
Proof.
  intros Hc. unfold Js.on_toggle_video, Js.bind.
  by rewrite clean_get_currentRoom, Hc.
Qed.

Lemma clean_on_toggle rs cur j iss c b r m p :
  cur !! c = Some (Some r) → r ≠ EmptyString → rs !! r = Some m →
  m !! c = Some p →
  let W := clean_world
             (<[r := <[c := {| username := username p; isVideoEnabled := b |}]> m]> rs)
             cur j iss in
  Js.on_toggle_video c b (clean_world rs cur j iss) =
  Js.Done (tt, W,
           (λ c', (c', Js.UserToggledVideo c b)) <$>
           elements (Js.group W r ∖ Js.group W c)).
Proof.
  intros Hc Hr Hm Hp W. unfold Js.on_toggle_video.
  etrans.
  { eapply js_bind_done; [apply clean_get_currentRoom |].
    rewrite Hc. simpl. apply truthy_true in Hr. rewrite Hr.
    assert (∃ v, Js.rooms_get_in r c (clean_world rs cur j iss) =
                   Js.Done (Some v, clean_world rs cur j iss, []) ∧
                 Js.truthy_val (Some v) = true) as (v & Hv & Ht).
    { destruct (decide (c ∈ inherited)) as [Hin | Hin].
      - by apply (clean_rooms_get_in_inherited _ _ _ _ _ m).
      - exists (peer_val p). rewrite (clean_rooms_get_in _ _ _ _ _ m) by done.
        by rewrite Hp. }
    eapply js_bind_done; [exact Hv |]. rewrite Ht.
    eapply js_bind_done; [by apply (clean_rooms_set_video _ _ _ _ _ m _ p) |].
    reflexivity. }
  done.
Qed.

Lemma clean_on_disconnect_unregistered rs cur j iss c :
  default None (cur !! c) = None →
  Js.on_disconnect c (clean_world rs cur j iss) =
  Js.Done (tt, clean_world rs cur j iss, []).
Proof.
  intros Hc. unfold Js.on_disconnect, Js.bind.
  by rewrite clean_get_currentRoom, Hc.
Qed.

Lemma clean_on_disconnect rs cur j iss c r m :
  cur !! c = Some (Some r) → r ≠ EmptyString → rs !! r = Some m →
  c ∉ Js.reserved →
  let W := clean_world (if decide (delete c m = ∅) then delete r rs
                        else <[r := delete c m]> rs) cur j iss in
  Js.on_disconnect c (clean_world rs cur j iss) =
  Js.Done (tt, W,
           (λ c', (c', Js.UserDisconnected c)) <$>
           elements (Js.group W r ∖ Js.group W c)).
Proof.
  intros Hc Hr Hm Hres W. unfold Js.on_disconnect.
  etrans.
  { eapply js_bind_done; [apply clean_get_currentRoom |].
    rewrite Hc. simpl. apply truthy_true in Hr. rewrite Hr.
    eapply js_bind_done.
    { unfold Js.rooms_get. by rewrite (clean_rooms_at_Some _ _ _ _ _ m). }
    simpl.
    eapply js_bind_done; [by apply (clean_rooms_delete_key _ _ _ _ _ m) |].
    eapply js_bind_done.
    { eapply js_bind_done;
        [apply (clean_rooms_keys_length _ _ _ _ _ (delete c m)), lookup_insert_eq |].
      instantiate (1 := []).
      instantiate (1 := clean_world (if decide (delete c m = ∅) then delete r rs
                        else <[r := delete c m]> rs) cur j iss).
      instantiate (1 := tt).
      case_decide as He.
      - rewrite He, map_size_empty. simpl.
        by rewrite clean_rooms_delete, delete_insert_eq.
      - destruct (size (delete c m)) eqn:Es.
        { by apply map_size_empty_iff in Es. }
        done. }
    reflexivity. }
  done.
Qed.

(** ** The simulation *)

Lemma relay_nil w : relay w [] = [].
Proof. done. Qed.

Lemma relay_cons w c m out :
  relay w ((c, m) :: out) =
  if decide (live w c) then (c, msg_val m) :: relay w out else relay w out.
Proof.
  unfold relay. rewrite filter_cons. simpl. by case_decide.
Qed.

Lemma js_step_handle e jw w' out :
  Js.handle e jw = Js.Done (tt, w', out) → Js.step jw e = Js.Done (w', out).
Proof. unfold Js.step. by intros ->. Qed.

Lemma current_room_lookup w c r :
  Inv w → currentRoom w !! c = Some (Some r) →
  r ≠ EmptyString ∧ ∃ m p, rooms w !! r = Some m ∧ m !! c = Some p.
Proof.
  intros HI Hc. destruct (inv_current w HI c r Hc) as [Hr Hin].
  split; [done |]. apply Inv_room_lookup in Hin as (m & Hm & [p Hp]). eauto.
Qed.

Lemma plain_room w r m :
  Plain w → rooms w !! r = Some m → (r ∉ inherited) ∧ (r ∉ issued w).
Proof. intros HP Hm. apply (plain_rooms w HP). by apply elem_of_dom_2 in Hm. Qed.

Lemma issued_no_room w c : Plain w → c ∈ issued w → c ∉ dom (rooms w).
Proof. intros HP Hc Hin. by destruct (plain_rooms w HP c Hin). Qed.

Lemma inherited_no_room w k : Plain w → k ∈ inherited → k ∉ dom (rooms w).
Proof. intros HP Hk Hin. by destruct (plain_rooms w HP k Hin). Qed.

Lemma inherited_not_live w k : Inv w → Plain w → k ∈ inherited → ¬ live w k.
Proof.
  intros HI HP Hk Hl. apply (live_not_reserved w k HI HP Hl).
  by apply inherited_reserved.
Qed.

Lemma entry_issued w r m c :
  Inv w → rooms w !! r = Some m → is_Some (m !! c) → c ∈ issued w.
Proof.
  intros HI Hm Hc. apply (inv_entries w HI r). unfold members. rewrite Hm.
  by apply elem_of_dom.
Qed.

Lemma sim_register w c name roomId :
  Inv w → Plain w → live w c →
  or_default roomId ∉ inherited → or_default roomId ∉ issued w →
  Js.step (embed w) (Register c name roomId) =
  Js.Done (embed (registered w c name roomId),
           relay w ((c, Introduction
                          (Some (members (registered w c name roomId)
                                   (or_default roomId))))
                    :: broadcast (registered w c name roomId) c
                         (or_default roomId) (NewUserConnected c name))).
Proof.
  intros HI HP Hl Hr Hi.
  set (w' := registered w c name roomId).
  assert (HI' : Inv w') by by apply Inv_register.
  assert (HP' : Plain w').
  { eapply (Plain_step w (Register c name roomId)); try done.
    apply step_register. }
  assert (Hc : c ∈ issued w) by by apply live_issued.
  apply js_step_handle. simpl. rewrite embed_clean.
  rewrite clean_on_register by (done || by apply (live_not_reserved w)).
  cbv zeta.
  assert (clean_world
            (<[or_default roomId :=
                 <[c := {| username := name; isVideoEnabled := false |}]>
                   (default ∅ (rooms w !! or_default roomId))]> (rooms w))
            (<[c := Some (or_default roomId)]> (currentRoom w))
            (<[c := {[or_default roomId]} ∪
                     default ∅ (map_imap (λ c gs, Some ({[c]} ∪ gs)) (joined w) !! c)]>
               (map_imap (λ c gs, Some ({[c]} ∪ gs)) (joined w)))
            (issued w) = embed w') as ->.
  { unfold w', embed, registered, clean_world, members. simpl. f_equal.
    by apply (embed_joined_registered w c (or_default roomId)). }
  rewrite (embed_except w' c (or_default roomId)) by done.
  rewrite relay_cons, decide_True by done.
  rewrite (relay_broadcast w w'); [| intros c' Hc' _].
  - unfold w' at 3, members, registered. simpl. by rewrite lookup_insert_eq.
  - apply (group_live w') in Hc'; [| done]. unfold live in *.
    unfold w', registered in Hc'. simpl in Hc'.
    rewrite dom_insert_L in Hc'. set_solver.
Qed.

Lemma sim_signal w c to from data :
  Inv w → Plain w → live w c →
  Js.step (embed w) (Signal c to from data) =
  Js.Done (embed w,
           relay w (if guard w c to then [(to, SignalMsg to from data)] else [])).
Proof.
  intros HI HP Hl. apply js_step_handle. simpl. rewrite embed_clean.
  unfold guard.
  destruct (currentRoom w !! c) as [[r |] |] eqn:Hc; simpl.
  - destruct (current_room_lookup w c r HI Hc) as (Hr & m & p & Hm & Hp).
    rewrite (clean_on_signal _ _ _ _ _ _ _ _ r m) by done. cbv zeta.
    rewrite <- embed_clean. rewrite Hm. simpl.
    apply truthy_true in Hr. rewrite Hr. simpl.
    destruct (m !! to) as [q |] eqn:Hq.
    + rewrite bool_decide_eq_true_2 by (left; eauto).
      rewrite bool_decide_eq_true_2 by eauto.
      rewrite embed_group_id; [| done |].
      * rewrite relay_cons, relay_nil.
        case_decide; [by rewrite elements_singleton | by rewrite elements_empty].
      * apply issued_no_room; [done |]. apply (entry_issued w r m); eauto.
    + rewrite (bool_decide_eq_false_2 (is_Some None)) by by intros [? ?].
      rewrite relay_nil. case_bool_decide as Hb; [| done].
      destruct Hb as [[? ?] | Hin]; [done |].
      rewrite embed_group_id; [| done | by apply inherited_no_room].
      rewrite decide_False by by apply inherited_not_live.
      by rewrite elements_empty.
  - by rewrite clean_on_signal_unregistered by by rewrite Hc.
  - by rewrite clean_on_signal_unregistered by by rewrite Hc.
Qed.

Lemma sim_toggle_hit w c b r m p :
  Inv w → Plain w →
  currentRoom w !! c = Some (Some r) → r ≠ EmptyString →
  rooms w !! r = Some m → m !! c = Some p →
  Js.step (embed w) (ToggleVideo c b) =
  Js.Done (embed (with_rooms (<[r := <[c := {| username := username p;
                                               isVideoEnabled := b |}]> m]>
                                (rooms w)) w),
           relay w (broadcast w c r (UserToggledVideo c b))).
Proof.
  intros HI HP Hc Hr Hm Hp.
  set (w' := with_rooms _ w).
  assert (HI' : Inv w') by by apply Inv_toggled.
  assert (Hs : step w (ToggleVideo c b) =
               Ok (w', broadcast w c r (UserToggledVideo c b)))
    by by apply step_toggle_hit.
  assert (Hl : live w c) by (unfold live; by apply elem_of_dom_2 in Hc).
  assert (HP' : Plain w') by by eapply (Plain_step w (ToggleVideo c b)).
  destruct (plain_room w r m HP Hm) as [_ Hri].
  apply js_step_handle. simpl. rewrite embed_clean.
  rewrite (clean_on_toggle _ _ _ _ _ _ r m p) by done. cbv zeta.
  change (clean_world _ _ _ _) with (embed w').
  rewrite (embed_except w' c r); [| done | done | done | by apply (live_issued w)].
  rewrite (relay_broadcast w w); [done |].
  intros c' Hc' _. by apply (group_live w r).
Qed.

Lemma sim_toggle_miss w c b :
  currentRoom w !! c = Some None →
  Js.step (embed w) (ToggleVideo c b) = Js.Done (embed w, relay w []).
Proof.
  intros Hc. apply js_step_handle. simpl. rewrite embed_clean.
  by rewrite clean_on_toggle_unregistered by by rewrite Hc.
Qed.

Lemma embed_dropped rs c w :
  embed (dropped rs c w) =
  clean_world rs (delete c (currentRoom w))
    (delete c (map_imap (λ c gs, Some ({[c]} ∪ gs)) (joined w))) (issued w).
Proof.
  unfold embed, dropped, clean_world. simpl. by rewrite map_imap_delete.
Qed.

Lemma js_handle_disconnect jw c w1 w2 out w3 :
  Js.leave_all c jw = Js.Done (tt, w1, []) →
  Js.on_disconnect c w1 = Js.Done (tt, w2, out) →
  Js.close c w2 = Js.Done (tt, w3, []) →
  Js.handle (Disconnect c) jw = Js.Done (tt, w3, out).
Proof.
  intros H1 H2 H3. simpl. unfold Js.bind. rewrite H1, H2, H3. simpl.
  by rewrite app_nil_r.
Qed.

Lemma sim_disconnect_hit w c r m :
  Inv w → Plain w →
  currentRoom w !! c = Some (Some r) → r ≠ EmptyString → rooms w !! r = Some m →
  Js.step (embed w) (Disconnect c) =
  Js.Done (embed (dropped (if decide (delete c m = ∅) then delete r (rooms w)
                           else <[r := delete c m]> (rooms w)) c w),
           relay w (broadcast w c r (UserDisconnected c))).
Proof.
  intros HI HP Hc Hr Hm.
  set (w' := dropped _ c w).
  assert (HI' : Inv w') by by apply Inv_dropped_hit.
  assert (Hs : step w (Disconnect c) =
               Ok (w', broadcast w c r (UserDisconnected c)))
    by by apply step_disconnect_hit.
  assert (Hl : live w c) by (unfold live; by apply elem_of_dom_2 in Hc).
  assert (HP' : Plain w') by by eapply (Plain_step w (Disconnect c)).
  destruct (plain_room w r m HP Hm) as [_ Hri].
  assert (Hres : c ∉ Js.reserved) by by apply (live_not_reserved w).
  apply js_step_handle.
  rewrite (js_handle_disconnect (embed w) c _ _ _ _
             (clean_leave_all _ _ _ _ c)
             (clean_on_disconnect _ _ _ _ c r m Hc Hr Hm Hres)
             (clean_close _ _ _ _ c)).
  rewrite (relay_broadcast w w);
    [| intros c' Hc' _; by apply (group_live w r)].
  rewrite <- (group_delete_self w c r (delete c (joined w)) eq_refl).
  change (group _ r) with (group w' r).
  rewrite <- (embed_except w' c r);
    [| done | done | done | by apply (live_issued w)].
  unfold w'. rewrite embed_dropped. done.
Qed.

Lemma sim_disconnect_miss w c :
  currentRoom w !! c = Some None →
  Js.step (embed w) (Disconnect c) =
  Js.Done (embed (dropped (rooms w) c w), relay w []).
Proof.
  intros Hc. apply js_step_handle.
  assert (Hn : default None (currentRoom w !! c) = None) by by rewrite Hc.
  rewrite (js_handle_disconnect (embed w) c _ _ _ _
             (clean_leave_all _ _ _ _ c)
             (clean_on_disconnect_unregistered _ _ _ _ c Hn)
             (clean_close _ _ _ _ c)).
  by rewrite embed_dropped.
Qed.

(** On a counterpart, an ordinary event takes the program where it takes
    the dictionary model, with the deliveries the transport can make. *)
Lemma simulation w e w' out :
  Inv w → Plain w → enabled w e → plain_event w e →
  step w e = Ok (w', out) →
  Js.step (embed w) e = Js.Done (embed w', relay w out).
Proof.
  intros HI HP He Hpe.
  destruct e as [c | c name roomId | c to from data | c b | c]; simpl in *.
  - rewrite step_connect. intros [= <- <-]. apply sim_connect.
  - rewrite step_register. intros [= <- <-]. destruct Hpe.
    by apply sim_register.
  - rewrite step_signal. intros [= <- <-]. by apply sim_signal.
  - destruct (currentRoom w !! c) as [[r |] |] eqn:Hc.
    + destruct (current_room_lookup w c r HI Hc) as (Hr & m & p & Hm & Hp).
      rewrite (step_toggle_hit w c b r m p) by done.
      intros [= <- <-]. by apply sim_toggle_hit.
    + rewrite step_toggle_miss by (unfold guard; by rewrite Hc).
      intros [= <- <-]. by apply sim_toggle_miss.
    + unfold live in He. apply elem_of_dom in He as [? He]. congruence.
  - destruct (currentRoom w !! c) as [[r |] |] eqn:Hc.
    + destruct (current_room_lookup w c r HI Hc) as (Hr & m & p & Hm & Hp).
      rewrite (step_disconnect_hit w c r m) by done.
      intros [= <- <-]. by apply sim_disconnect_hit.
    + rewrite step_disconnect_miss by (intros r; rewrite Hc; congruence).
      intros [= <- <-]. by apply sim_disconnect_miss.
    + unfold live in He. apply elem_of_dom in He as [? He]. congruence.
Qed.

(** ** Runs with ordinary names *)

(** An event that keeps names ordinary, as seen on the program's own state:
    a new socket id is not the name of a room, and a room name is neither
    inherited from [Object.prototype] nor a socket id. *)
Definition ordinary_event (jw : Js.World) (e : Event) : Prop :=
  match e with
  | Connect c => c ∉ dom (Js.rooms jw)
  | Register _ _ roomId =>
      (or_default roomId ∉ inherited) ∧ (or_default roomId ∉ Js.issued jw)
  | _ => True
  end.

Global Instance ordinary_event_dec jw e : Decision (ordinary_event jw e).
Proof. destruct e; simpl; apply _. Defined.

(** The states of [Js] reached through ordinary events. *)
Inductive ordinary : Js.World → Prop :=
| ordinary_init : ordinary Js.init
| ordinary_step jw e jw' out :
    ordinary jw → Js.enabled jw e → ordinary_event jw e →
    Js.step jw e = Js.Done (jw', out) → ordinary jw'.

Fixpoint ordinary_run (jw : Js.World) (t : list Event) : option Js.World :=
  match t with
  | [] => Some jw
  | e :: t' =>
      if decide (Js.enabled jw e ∧ ordinary_event jw e) then
        match Js.step jw e with
        | Js.Done (jw', _) => ordinary_run jw' t'
        | _ => None
        end
      else None
  end.

Lemma ordinary_run_from jw t jw' :
  ordinary jw → ordinary_run jw t = Some jw' → ordinary jw'.
Proof.
  revert jw. induction t as [| e t IH]; intros jw Hw; simpl.
  - by intros [= <-].
  - case_decide as He; [| done]. destruct He as [He Ho].
    destruct (Js.step jw e) as [[jw1 out] | |] eqn:Hs; [| done | done].
    apply IH. by eapply ordinary_step.
Qed.

Lemma ordinary_run_init t jw : ordinary_run Js.init t = Some jw → ordinary jw.
Proof. apply ordinary_run_from, ordinary_init. Qed.

Lemma ordinary_reachable jw : ordinary jw → Js.reachable jw.
Proof.
  induction 1 as [| jw e jw' out _ IH He _ Hs]; [apply Js.reach_init |].
  by eapply Js.reach_step.
Qed.

Lemma embed_init : embed init = Js.init.
Proof.
  unfold embed, Js.init. simpl. by rewrite fmap_empty, map_imap_empty.
Qed.

Lemma embed_enabled w e : Js.enabled (embed w) e → enabled w e.
Proof. destruct e; simpl; [by intros [? _] | done ..]. Qed.

Lemma embed_plain_event w e :
  Js.enabled (embed w) e → ordinary_event (embed w) e → plain_event w e.
Proof.
  destruct e; simpl; try done.
  intros [_ Hres] Hd. split; [done |]. by rewrite dom_fmap_L in Hd.
Qed.

(** A step of the program from a counterpart is the step of the dictionary
    model. *)
Lemma embed_step w e jw' jout :
  Inv w → Plain w → Js.enabled (embed w) e → ordinary_event (embed w) e →
  Js.step (embed w) e = Js.Done (jw', jout) →
  ∃ w' out, step w e = Ok (w', out) ∧ enabled w e ∧
            jw' = embed w' ∧ jout = relay w out.
Proof.
  intros HI HP He Ho Hs.
  destruct (step_total w e) as (w' & out & Hd).
  exists w', out. split; [done |]. split; [by apply embed_enabled |].
  rewrite (simulation w e w' out HI HP) in Hs;
    [| by apply embed_enabled | by apply embed_plain_event | done].
  by injection Hs as <- <-.
Qed.

(** Every state reached through ordinary events is the counterpart of a
    reachable state of the dictionary model. *)
Lemma ordinary_counterpart jw :
  ordinary jw → ∃ w, reachable w ∧ Plain w ∧ jw = embed w.
Proof.
  induction 1 as [| jw e jw' jout _ IH He Ho Hs].
  - exists init. split; [apply reach_init |]. split; [apply Plain_init |].
    by rewrite embed_init.
  - destruct IH as (w & Hw & HP & ->).
    pose proof (reachable_Inv w Hw) as HI.
    destruct (embed_step w e jw' jout HI HP He Ho Hs)
      as (w' & out & Hd & He' & -> & _).
    exists w'. split; [by eapply reach_step |]. split; [| done].
    exact (Plain_step w e w' out HI HP He' (embed_plain_event w e He Ho) Hd).
Qed.

(** ** Reading a counterpart *)

Lemma embed_members w r : Js.members (embed w) r = peer_val <$> members w r.
Proof.
  unfold Js.members, members. simpl. rewrite lookup_fmap.
  destruct (rooms w !! r); simpl; [done | by rewrite fmap_empty].
Qed.

Lemma embed_dom_members w r : dom (Js.members (embed w) r) = dom (members w r).
Proof. by rewrite embed_members, dom_fmap_L. Qed.

Lemma elem_of_relay w out c' jm :
  (c', jm) ∈ relay w out ↔ ∃ m, (c', m) ∈ out ∧ live w c' ∧ jm = msg_val m.
Proof.
  unfold relay. rewrite list_elem_of_fmap. split.
  - intros ([c0 m] & [= -> ->] & [Hl Hin]%list_elem_of_filter). eauto.
  - intros (m & Hin & Hl & ->). exists (c', m). split; [done |].
    by apply list_elem_of_filter.
Qed.

Lemma group_live_members w r c :
  Inv w → c ∈ group w r ↔ live w c ∧ c ∈ dom (members w r).
Proof.
  intros HI. unfold live. rewrite elem_of_group, <- (inv_joined w HI). split.
  - intros (gs & Hgs & Hr). split; [by apply elem_of_dom_2 in Hgs |].
    by apply (inv_group w HI c gs r Hgs).
  - intros [[gs Hgs]%elem_of_dom Hin]. exists gs. split; [done |].
    by apply (inv_group w HI c gs r Hgs).
Qed.

(** ** The handlers of the program on runs with ordinary names *)

(** "The caller has a recorded current room and [id] has an entry in it." *)
Definition shares_room (jw : Js.World) (c id : string) : Prop :=
  ∃ r, Js.currentRoom jw !! c = Some (Some r) ∧ id ∈ dom (Js.members jw r).

Lemma guard_shares_room w c id :
  Inv w → guard w c id = true ↔ shares_room (embed w) c id.
Proof.
  intros HI. rewrite guard_true. unfold shares_room. split.
  - intros (r & m & Hc & Hr & Hm & Hid). exists r. split; [done |].
    rewrite embed_dom_members. unfold members. rewrite Hm.
    by apply elem_of_dom.
  - intros (r & Hc & Hid). rewrite embed_dom_members in Hid.
    apply Inv_room_lookup in Hid as (m & Hm & Hid).
    exists r, m. by destruct (inv_current w HI c r Hc).
Qed.

(** A, B registered in "room1"; C connected. *)
Definition js_lobby_trace : list Event :=
  [Connect A; Register A "alice" (Some "room1");
   Connect B; Register B "bob" (Some "room1"); Connect C].

Definition js_lobby_world : Js.World :=
  Eval vm_compute in default Js.init (ordinary_run Js.init js_lobby_trace).

Lemma js_lobby_world_run :
  ordinary_run Js.init js_lobby_trace = Some js_lobby_world.
Proof. vm_compute. reflexivity. Qed.

Lemma js_lobby_world_ordinary : ordinary js_lobby_world.
Proof. exact (ordinary_run_init _ _ js_lobby_world_run). Qed.

(** X19. On a run with ordinary names, a [signal(to, from, data)] leaves the
    state as it is; when [to] is connected and has an entry in the caller's
    current room, one message is delivered, to [to], with [from] and [data]
    as received; otherwise nothing is delivered to anyone. *)
Theorem X19_ordinary_signal_relay jw c to from data :
  ordinary jw → Js.live jw c →
  ∃ out, Js.step jw (Signal c to from data) = Js.Done (jw, out) ∧
    (shares_room jw c to ∧ Js.live jw to →
       out = [(to, Js.SignalMsg to from data)]) ∧
    (¬ (shares_room jw c to ∧ Js.live jw to) → out = []).
Proof.
  intros Ho Hl. destruct (ordinary_counterpart jw Ho) as (w & Hw & HP & ->).
  pose proof (reachable_Inv w Hw) as HI.
  rewrite sim_signal by done. eexists. split; [done |].
  destruct (guard w c to) eqn:G.
  - apply (guard_shares_room w c to HI) in G. rewrite relay_cons, relay_nil.
    split.
    + intros [_ Hto]. by rewrite decide_True.
    + intros Hn. case_decide; [| done]. by destruct Hn.
  - rewrite relay_nil. split; [| done]. intros [Hs _].
    apply (guard_shares_room w c to HI) in Hs. congruence.
Qed.

Lemma X19_ordinary_signal_relay_witness :
  ordinary js_lobby_world ∧ Js.live js_lobby_world A ∧
  Js.step js_lobby_world (Signal A B A "offer") =
    Js.Done (js_lobby_world, [(B, Js.SignalMsg B A "offer")]).
Proof.
  assert (Js.live js_lobby_world A) as HA.
  { apply (bool_decide_unpack _). vm_compute. exact I. }
  split; [exact js_lobby_world_ordinary |]. split; [exact HA |].
  destruct (X19_ordinary_signal_relay js_lobby_world A B A "offer"
              js_lobby_world_ordinary HA) as (out & Hs & Hhit & _).
  rewrite Hs. f_equal. f_equal. apply Hhit. split.
  - exists "room1". split; [reflexivity |].
    apply (bool_decide_unpack _). vm_compute. exact I.
  - apply (bool_decide_unpack _). vm_compute. exact I.
Defined.

(** What a room broadcast of the dictionary model delivers, on the
    counterpart. *)
Lemma elem_of_relay_broadcast w w0 c r msg c' jm :
  Inv w → (∀ x, x ∈ group w r → live w0 x) →
  (c', jm) ∈ relay w0 (broadcast w c r msg) ↔
  jm = msg_val msg ∧ c' ≠ c ∧ live w c' ∧ c' ∈ dom (members w r).
Proof.
  intros HI Hl. rewrite elem_of_relay. split.
  - intros (m & (-> & Hne & Hg)%elem_of_broadcast & _ & ->).
    apply (group_live_members w r c' HI) in Hg. tauto.
  - intros (-> & Hne & Hlv & Hm). exists msg.
    assert (c' ∈ group w r) by by apply group_live_members.
    split; [by apply elem_of_broadcast |]. split; [by apply Hl | done].
Qed.

(** X20. On a run with ordinary names, a [register] into a room with an
    ordinary name puts the caller's entry [{username, isVideoEnabled:
    false}] into that room, created if absent, and leaves the other rooms
    alone; the room becomes the caller's current room; the caller is sent
    [introduction] with the member map of the room, its own entry included,
    and [newUserConnected] goes to exactly the other connected sockets with
    an entry in the room. *)
Theorem X20_ordinary_register jw c name roomId :
  ordinary jw → Js.live jw c →
  or_default roomId ∉ inherited → or_default roomId ∉ Js.issued jw →
  ∃ jw' out snap,
    Js.step jw (Register c name roomId) = Js.Done (jw', out) ∧
    snap = <[c := Js.new_peer name]> (Js.members jw (or_default roomId)) ∧
    Js.rooms jw' = <[or_default roomId := Js.VObj snap]> (Js.rooms jw) ∧
    Js.currentRoom jw' = <[c := Some (or_default roomId)]> (Js.currentRoom jw) ∧
    (∀ c' msg, (c', msg) ∈ out ↔
       (c' = c ∧ msg = Js.Introduction (Some snap)) ∨
       (msg = Js.NewUserConnected c name ∧ c' ≠ c ∧ Js.live jw c' ∧
        c' ∈ dom (Js.members jw (or_default roomId)))).
Proof.
  intros Ho Hl Hr Hi. destruct (ordinary_counterpart jw Ho) as (w & Hw & HP & ->).
  pose proof (reachable_Inv w Hw) as HI.
  assert (HI' : Inv (registered w c name roomId)) by by apply Inv_register.
  rewrite sim_register by done. do 3 eexists. split; [done |].
  split; [done |]. rewrite embed_members.
  assert (Hsnap : peer_val <$> members (registered w c name roomId) (or_default roomId)
                  = <[c := Js.new_peer name]> (peer_val <$> members w (or_default roomId))).
  { rewrite members_registered, decide_True by done. by rewrite fmap_insert. }
  split; [| split; [done |]].
  - simpl. rewrite fmap_insert. unfold room_val at 1. by rewrite fmap_insert.
  - intros c' msg. rewrite relay_cons, decide_True by done.
    rewrite elem_of_cons.
    rewrite (elem_of_relay_broadcast (registered w c name roomId) w); [| done |].
    + simpl. rewrite !Hsnap.
      rewrite members_registered, decide_True by done.
      rewrite dom_insert_L, dom_fmap_L.
      unfold Js.live, live. simpl. rewrite dom_insert_L.
      unfold live in Hl. split.
      * intros [[= -> ->] | (-> & Hne & Hlv & Hm)]; [by left |].
        right. set_solver.
      * intros [[-> ->] | (-> & Hne & Hlv & Hm)]; [by left |].
        right. set_solver.
    + intros x Hx. apply (group_live _ _ _ HI') in Hx. unfold live in *.
      simpl in Hx. rewrite dom_insert_L in Hx. set_solver.
Qed.

Lemma X20_ordinary_register_witness :
  ordinary js_lobby_world ∧ Js.live js_lobby_world C ∧
  ∃ jw' out,
    Js.step js_lobby_world (Register C "carol" (Some "room1")) = Js.Done (jw', out) ∧
    (A, Js.NewUserConnected C "carol") ∈ out.
Proof.
  assert (Js.live js_lobby_world C) as HC.
  { apply (bool_decide_unpack _). vm_compute. exact I. }
  split; [exact js_lobby_world_ordinary |]. split; [exact HC |].
  assert (or_default (Some "room1") ∉ inherited) as Hr.
  { apply (bool_decide_unpack _). vm_compute. exact I. }
  assert (or_default (Some "room1") ∉ Js.issued js_lobby_world) as Hi.
  { apply (bool_decide_unpack _). vm_compute. exact I. }
  destruct (X20_ordinary_register js_lobby_world C "carol" (Some "room1")
              js_lobby_world_ordinary HC Hr Hi)
    as (jw' & out & snap & Hs & _ & _ & _ & Hout).
  exists jw', out. split; [exact Hs |].
  apply Hout. right. split; [reflexivity |]. split; [discriminate |].
  split; apply (bool_decide_unpack _); vm_compute; exact I.
Defined.

(** X21. On a run with ordinary names, [user-toggle-video(isEnabled)] from
    a registered socket sets [isVideoEnabled] in the caller's entry of its
    current room and changes nothing else; [user-toggled-video] goes to
    exactly the other connected sockets with an entry in that room, never to
    the caller; and the [introduction] of a socket that registers into the
    room next shows the new value. *)
Theorem X21_ordinary_toggle jw c b r :
  ordinary jw → Js.currentRoom jw !! c = Some (Some r) →
  ∃ jw' out ps,
    Js.step jw (ToggleVideo c b) = Js.Done (jw', out) ∧
    Js.members jw r !! c = Some (Js.VObj ps) ∧
    Js.rooms jw' =
      <[r := Js.VObj (<[c := Js.VObj (<["isVideoEnabled" := Js.VBool b]> ps)]>
                        (Js.members jw r))]> (Js.rooms jw) ∧
    Js.currentRoom jw' = Js.currentRoom jw ∧
    Js.joined jw' = Js.joined jw ∧
    (∀ c' msg, (c', msg) ∈ out ↔
       msg = Js.UserToggledVideo c b ∧ c' ≠ c ∧ Js.live jw c' ∧
       c' ∈ dom (Js.members jw r)) ∧
    (∀ c2 name2 roomId2, c2 ≠ c → Js.live jw c2 → or_default roomId2 = r →
       ∃ jw2 out2 snap,
         Js.step jw' (Register c2 name2 roomId2) = Js.Done (jw2, out2) ∧
         (c2, Js.Introduction (Some snap)) ∈ out2 ∧
         snap !! c = Some (Js.VObj (<["isVideoEnabled" := Js.VBool b]> ps))).
Proof.
  intros Ho Hc. destruct (ordinary_counterpart jw Ho) as (w & Hw & HP & ->).
  pose proof (reachable_Inv w Hw) as HI. simpl in Hc.
  destruct (current_room_lookup w c r HI Hc) as (Hr & m & p & Hm & Hp).
  assert (Hmem : members w r = m) by (unfold members; by rewrite Hm).
  set (w' := with_rooms (<[r := <[c := {| username := username p;
                                           isVideoEnabled := b |}]> m]>
                           (rooms w)) w).
  assert (Hs : step w (ToggleVideo c b) =
               Ok (w', broadcast w c r (UserToggledVideo c b)))
    by by apply step_toggle_hit.
  assert (Hl : live w c) by (unfold live; by apply elem_of_dom_2 in Hc).
  assert (HI' : Inv w') by by apply Inv_toggled.
  assert (HP' : Plain w') by by eapply (Plain_step w (ToggleVideo c b)).
  destruct (plain_room w r m HP Hm) as [Hrn Hri].
  rewrite (sim_toggle_hit w c b r m p) by done. fold w'.
  exists (embed w'), (relay w (broadcast w c r (UserToggledVideo c b))).
  exists (<["username" := Js.VStr (username p)]>
            (<["isVideoEnabled" := Js.VBool (isVideoEnabled p)]> ∅)).
  split; [done |]. rewrite embed_members, Hmem.
  split; [by rewrite lookup_fmap, Hp |].
  split; [| split; [done | split; [done | split]]].
  - simpl. rewrite fmap_insert. unfold room_val at 1. by rewrite fmap_insert.
  - intros c' msg.
    rewrite (elem_of_relay_broadcast w w); [| done |].
    + rewrite dom_fmap_L, Hmem. done.
    + intros x. by apply group_live.
  - intros c2 name2 roomId2 Hne Hl2 Hroom.
    assert (HI2 : Inv (registered w' c2 name2 roomId2)) by by apply Inv_register.
    rewrite (sim_register w' c2 name2 roomId2); [| done | done | done | |].
    + do 3 eexists. split; [done |]. split.
      * rewrite relay_cons, decide_True by done. by left.
      * rewrite members_registered, decide_True by done.
        rewrite lookup_fmap, lookup_insert_ne by done.
        unfold members. simpl. rewrite Hroom, lookup_insert_eq. simpl.
        by rewrite lookup_insert_eq.
    + by rewrite Hroom.
    + by rewrite Hroom.
Qed.

Lemma X21_ordinary_toggle_witness :
  ordinary js_lobby_world ∧
  Js.currentRoom js_lobby_world !! A = Some (Some "room1") ∧
  ∃ jw' out,
    Js.step js_lobby_world (ToggleVideo A true) = Js.Done (jw', out) ∧
    ((B, Js.UserToggledVideo A true) ∈ out ∧
     (A, Js.UserToggledVideo A true) ∉ out).
Proof.
  split; [exact js_lobby_world_ordinary |]. split; [reflexivity |].
  destruct (X21_ordinary_toggle js_lobby_world A true "room1"
              js_lobby_world_ordinary eq_refl)
    as (jw' & out & ps & Hs & _ & _ & _ & _ & Hout & _).
  exists jw', out. split; [exact Hs |]. split.
  - apply Hout. split; [reflexivity |]. split; [discriminate |].
    split; apply (bool_decide_unpack _); vm_compute; exact I.
  - intros Hin. apply Hout in Hin as (_ & Hne & _). exact (Hne eq_refl).
Defined.

(** X22. On a run with ordinary names, the [disconnect] of a registered
    socket removes its entry from its current room; the room is removed
    exactly when that was its only entry, and the other rooms stay as they
    are; [userDisconnected] goes to exactly the other connected sockets with
    an entry in the room, so to nobody when the room is removed. *)
Theorem X22_ordinary_disconnect jw c r :
  ordinary jw → Js.currentRoom jw !! c = Some (Some r) →
  ∃ jw' out,
    Js.step jw (Disconnect c) = Js.Done (jw', out) ∧
    ¬ Js.live jw' c ∧
    Js.members jw' r = delete c (Js.members jw r) ∧
    (Js.rooms jw' !! r = None ↔ dom (Js.members jw r) = {[c]}) ∧
    (∀ r', r' ≠ r → Js.rooms jw' !! r' = Js.rooms jw !! r') ∧
    (∀ c' msg, (c', msg) ∈ out ↔
       msg = Js.UserDisconnected c ∧ c' ≠ c ∧ Js.live jw c' ∧
       c' ∈ dom (Js.members jw r)).
Proof.
  intros Ho Hc. destruct (ordinary_counterpart jw Ho) as (w & Hw & HP & ->).
  pose proof (reachable_Inv w Hw) as HI. simpl in Hc.
  destruct (current_room_lookup w c r HI Hc) as (Hr & m & p & Hm & Hp).
  assert (Hmem : members w r = m) by (unfold members; by rewrite Hm).
  rewrite (sim_disconnect_hit w c r m) by done.
  do 2 eexists. split; [done |].
  split; [| split; [| split; [| split]]].
  - unfold Js.live. simpl. rewrite dom_delete_L. set_solver.
  - rewrite !embed_members, members_dropped by done.
    by rewrite decide_True, fmap_delete.
  - rewrite embed_dom_members, Hmem. simpl. rewrite lookup_fmap.
    assert (delete c m = ∅ ↔ dom m = {[c]}) as Hiff.
    { rewrite <- dom_empty_iff_L, dom_delete_L.
      apply elem_of_dom_2 in Hp. split; intros H.
      - apply set_eq. intros x. rewrite elem_of_singleton. split.
        + intros Hx. destruct (decide (x = c)) as [| Hne]; [done |].
          assert (x ∈ dom m ∖ {[c]}) as Hx'
            by (apply elem_of_difference; by rewrite elem_of_singleton).
          rewrite H in Hx'. by apply elem_of_empty in Hx'.
        + by intros ->.
      - rewrite H. apply set_eq. intros x.
        rewrite elem_of_difference, elem_of_empty. tauto. }
    case_decide as He.
    + rewrite lookup_delete_eq. simpl. by rewrite <- Hiff.
    + rewrite lookup_insert_eq. simpl. rewrite <- Hiff. done.
  - intros r' Hne. simpl. rewrite !lookup_fmap.
    case_decide; [by rewrite lookup_delete_ne | by rewrite lookup_insert_ne].
  - intros c' msg.
    rewrite (elem_of_relay_broadcast w w); [| done |].
    + by rewrite embed_dom_members.
    + intros x. by apply group_live.
Qed.

Lemma X22_ordinary_disconnect_witness :
  ordinary js_lobby_world ∧
  Js.currentRoom js_lobby_world !! A = Some (Some "room1") ∧
  ∃ jw' out,
    Js.step js_lobby_world (Disconnect A) = Js.Done (jw', out) ∧
    (B, Js.UserDisconnected A) ∈ out ∧
    Js.members jw' "room1" = delete A (Js.members js_lobby_world "room1").
Proof.
  split; [exact js_lobby_world_ordinary |]. split; [reflexivity |].
  destruct (X22_ordinary_disconnect js_lobby_world A "room1"
              js_lobby_world_ordinary eq_refl)
    as (jw' & out & Hs & _ & Hmem & _ & _ & Hout).
  exists jw', out. split; [exact Hs |]. split; [| exact Hmem].
  apply Hout. split; [reflexivity |]. split; [discriminate |].
  split; apply (bool_decide_unpack _); vm_compute; exact I.
Defined.

(** X23. On a run with ordinary names, the recorded current room of a
    socket is a non-empty name, the socket is connected and sits in the
    socket.io room of that name, and [rooms] has that room with an entry for
    the socket: the guard of [user-toggle-video] and the room lookup of
    [disconnect] succeed.  Moreover every room of [rooms] is an object with
    at least one entry. *)
Theorem X23_ordinary_current_room jw :
  ordinary jw →
  (∀ c r, Js.currentRoom jw !! c = Some (Some r) →
     r ≠ EmptyString ∧ Js.live jw c ∧ c ∈ Js.group jw r ∧
     ∃ ps q, Js.rooms jw !! r = Some (Js.VObj ps) ∧ ps !! c = Some (Js.VObj q)) ∧
  (∀ r v, Js.rooms jw !! r = Some v → ∃ ps, v = Js.VObj ps ∧ ps ≠ ∅).
Proof.
  intros Ho. destruct (ordinary_counterpart jw Ho) as (w & Hw & HP & ->).
  pose proof (reachable_Inv w Hw) as HI. split.
  - intros c r Hc. simpl in Hc.
    destruct (current_room_lookup w c r HI Hc) as (Hr & m & p & Hm & Hp).
    destruct (plain_room w r m HP Hm) as [Hrn Hri].
    assert (Hl : live w c) by (unfold live; by apply elem_of_dom_2 in Hc).
    split; [done |]. split; [done |]. split.
    + rewrite embed_group_room by done. apply group_live_members; [done |].
      split; [done |]. unfold members. rewrite Hm. by apply elem_of_dom.
    + simpl. rewrite lookup_fmap, Hm. simpl. do 2 eexists. split; [done |].
      by rewrite lookup_fmap, Hp.
  - intros r v. simpl. rewrite lookup_fmap.
    destruct (rooms w !! r) as [m |] eqn:Hm; simpl; [| done].
    intros [= <-]. eexists. split; [done |].
    intros He%fmap_empty_inv. by apply (inv_nonempty w HI r m).
Qed.

Lemma X23_ordinary_current_room_witness :
  ordinary js_lobby_world ∧ B ∈ Js.group js_lobby_world "room1".
Proof.
  split; [exact js_lobby_world_ordinary |].
  exact (proj1 (proj2 (proj2
    (proj1 (X23_ordinary_current_room js_lobby_world js_lobby_world_ordinary)
       B "room1" eq_refl)))).
Defined.

(** ** What a handler leaves alone, and whom it reaches *)

(** X2. On a run with ordinary names, a handler run for one socket never
    touches another: for every other socket id, its entries in all rooms,
    its current room and its socket.io rooms are the same before and
    after. *)
Theorem X2_ordinary_only_own_entry jw e jw' out c' :
  ordinary jw → Js.enabled jw e → ordinary_event jw e →
  Js.step jw e = Js.Done (jw', out) → c' ≠ actor e →
  (∀ r, Js.members jw' r !! c' = Js.members jw r !! c') ∧
  Js.currentRoom jw' !! c' = Js.currentRoom jw !! c' ∧
  Js.joined jw' !! c' = Js.joined jw !! c'.
Proof.
  intros Ho He Hoe Hs Hne.
  destruct (ordinary_counterpart jw Ho) as (w & Hw & HP & ->).
  pose proof (reachable_Inv w Hw) as HI.
  destruct (embed_step w e jw' out HI HP He Hoe Hs) as (w' & out0 & Hd & _ & -> & _).
  destruct (step_other w e w' out0 c' Hd Hne) as (Hm & Hc & Hj).
  split; [| split; [done |]].
  - intros r. by rewrite !embed_members, !lookup_fmap, Hm.
  - by rewrite !embed_joined, Hj.
Qed.

Lemma X2_ordinary_only_own_entry_witness :
  ordinary js_lobby_world ∧
  ∃ jw' out,
    Js.step js_lobby_world (Disconnect A) = Js.Done (jw', out) ∧
    Js.members jw' "room1" !! B = Js.members js_lobby_world "room1" !! B.
Proof.
  split; [exact js_lobby_world_ordinary |].
  assert (Js.enabled js_lobby_world (Disconnect A)) as He.
  { apply (bool_decide_unpack _). vm_compute. exact I. }
  assert (B ≠ actor (Disconnect A)) as Hne by discriminate.
  destruct (Js.step js_lobby_world (Disconnect A)) as [[jw' out] | |] eqn:Hs;
    [| vm_compute in Hs; discriminate Hs ..].
  exists jw', out. split; [reflexivity |].
  exact (proj1 (X2_ordinary_only_own_entry js_lobby_world (Disconnect A) jw' out B
                  js_lobby_world_ordinary He I Hs Hne) "room1").
Defined.

(** X3. On a run with ordinary names, the socket.io rooms of a socket are
    the room of its own id and the rooms in which it has an entry: socket
    [c] is in the socket.io room [r] exactly when it is connected and [r] is
    its id or [rooms[r]] has an entry for it. *)
Theorem X3_ordinary_group_matches_registry jw r c :
  ordinary jw →
  c ∈ Js.group jw r ↔ Js.live jw c ∧ (r = c ∨ c ∈ dom (Js.members jw r)).
Proof.
  intros Ho. destruct (ordinary_counterpart jw Ho) as (w & Hw & HP & ->).
  pose proof (reachable_Inv w Hw) as HI.
  rewrite js_elem_of_group, embed_joined, embed_dom_members.
  unfold Js.live. simpl. rewrite <- (inv_joined w HI), elem_of_dom. split.
  - intros (gs' & Hgs & Hin).
    destruct (joined w !! c) as [gs |] eqn:E; [| done].
    simpl in Hgs. injection Hgs as <-. split; [eauto |].
    apply elem_of_union in Hin as [->%elem_of_singleton | Hin]; [by left |].
    right. by apply (inv_group w HI c gs r E).
  - intros [[gs Hgs] Hr]. rewrite Hgs. simpl. eexists. split; [done |].
    destruct Hr as [-> | Hin]; [set_solver |].
    apply (inv_group w HI c gs r Hgs) in Hin. set_solver.
Qed.

Lemma X3_ordinary_group_matches_registry_witness :
  ordinary js_lobby_world ∧ B ∈ Js.group js_lobby_world "room1".
Proof.
  split; [exact js_lobby_world_ordinary |].
  apply (X3_ordinary_group_matches_registry js_lobby_world "room1" B
           js_lobby_world_ordinary).
  split; [apply (bool_decide_unpack _); vm_compute; exact I |].
  right. apply (bool_decide_unpack _). vm_compute. exact I.
Defined.

(** The room an event is about: the room named by a [register], the
    caller's current room for the other handlers. *)
Definition event_room (cur : gmap string (option string)) (e : Event)
  : option string :=
  match e with
  | Connect _ => None
  | Register _ _ roomId => Some (or_default roomId)
  | Signal c _ _ _ | ToggleVideo c _ | Disconnect c => default None (cur !! c)
  end.

Lemma deliveries_in_room w e w' out c' msg :
  Inv w → enabled w e → step w e = Ok (w', out) → (c', msg) ∈ out →
  c' = actor e ∨
  ∃ r, event_room (currentRoom w) e = Some r ∧ c' ∈ dom (members w r).
Proof.
  intros HI He Hs Hin.
  destruct e as [c | c name roomId | c to from data | c b | c]; simpl in *.
  - rewrite step_connect in Hs. injection Hs as <- <-. set_solver.
  - assert (Inv (registered w c name roomId)) as HI' by by apply Inv_register.
    rewrite step_register in Hs. injection Hs as <- <-.
    apply elem_of_cons in Hin as [[= -> _] | Hin]; [by left |].
    apply elem_of_broadcast in Hin as (_ & Hne & Hg).
    apply (group_live_members _ _ _ HI') in Hg as [_ Hm].
    rewrite members_registered, decide_True, dom_insert_L in Hm by done.
    right. exists (or_default roomId). split; [done | set_solver].
  - rewrite step_signal in Hs. injection Hs as <- <-.
    destruct (guard w c to) eqn:G; [| set_solver].
    apply guard_true in G as (r & m & Hc & Hr & Hm & Hto).
    apply list_elem_of_singleton in Hin as [= -> _]. right.
    exists r. rewrite Hc. split; [done |]. unfold members. rewrite Hm.
    by apply elem_of_dom.
  - destruct (guard w c c) eqn:G.
    + apply guard_true in G as (r & m & Hc & Hr & Hm & [p Hp]).
      rewrite (step_toggle_hit w c b r m p) in Hs by done.
      injection Hs as <- <-.
      apply elem_of_broadcast in Hin as (_ & Hne & Hg).
      apply (group_live_members _ _ _ HI) in Hg as [_ Hg]. right.
      exists r. by rewrite Hc.
    + rewrite step_toggle_miss in Hs by done. injection Hs as <- <-. set_solver.
  - destruct (currentRoom w !! c) as [[r |] |] eqn:Hc.
    + destruct (inv_current w HI c r Hc) as [Hr Hcm].
      destruct (Inv_room_lookup w r c Hcm) as (m & Hm & _).
      rewrite (step_disconnect_hit w c r m) in Hs by done.
      injection Hs as <- <-.
      apply elem_of_broadcast in Hin as (_ & Hne & Hg).
      apply (group_live_members _ _ _ HI) in Hg as [_ Hg]. right. eauto.
    + rewrite step_disconnect_miss in Hs by (intros r; rewrite Hc; congruence).
      injection Hs as <- <-. set_solver.
    + rewrite step_disconnect_miss in Hs by (intros r; rewrite Hc; congruence).
      injection Hs as <- <-. set_solver.
Qed.

Lemma ordinary_deliveries jw e jw' out c' msg :
  ordinary jw → Js.enabled jw e → ordinary_event jw e →
  Js.step jw e = Js.Done (jw', out) → (c', msg) ∈ out →
  c' = actor e ∨
  (Js.live jw c' ∧
   ∃ r, event_room (Js.currentRoom jw) e = Some r ∧ c' ∈ dom (Js.members jw r)).
Proof.
  intros Ho He Hoe Hs Hin.
  destruct (ordinary_counterpart jw Ho) as (w & Hw & HP & ->).
  pose proof (reachable_Inv w Hw) as HI.
  destruct (embed_step w e jw' out HI HP He Hoe Hs)
    as (w' & out0 & Hd & He' & -> & ->).
  apply elem_of_relay in Hin as (m & Hin & Hl & _).
  destruct (deliveries_in_room w e w' out0 c' m HI He' Hd Hin)
    as [-> | (r & Hr & Hm)]; [by left |].
  right. split; [done |]. exists r. by rewrite embed_dom_members.
Qed.

(** X4. On a run with ordinary names, messages never leave the room the
    event is about: whatever a handler delivers goes to the caller itself or
    to a connected socket with an entry in that room, which is the room
    named by a [register] and the caller's current room otherwise. *)
Theorem X4_ordinary_deliveries_stay_in_room jw e jw' out c' msg :
  ordinary jw → Js.enabled jw e → ordinary_event jw e →
  Js.step jw e = Js.Done (jw', out) → (c', msg) ∈ out →
  c' = actor e ∨
  (Js.live jw c' ∧
   ∃ r, event_room (Js.currentRoom jw) e = Some r ∧ c' ∈ dom (Js.members jw r)).
Proof. apply ordinary_deliveries. Qed.

(** C registered in "room2" while A and B are in "room1". *)
Definition js_trio_trace : list Event :=
  js_lobby_trace ++ [Register C "carol" (Some "room2")].

Definition js_trio_world : Js.World :=
  Eval vm_compute in default Js.init (ordinary_run Js.init js_trio_trace).

Lemma js_trio_world_run :
  ordinary_run Js.init js_trio_trace = Some js_trio_world.
Proof. vm_compute. reflexivity. Qed.

Lemma js_trio_world_ordinary : ordinary js_trio_world.
Proof. exact (ordinary_run_init _ _ js_trio_world_run). Qed.

Definition js_trio_toggled : Js.World :=
  Eval vm_compute in
    match Js.step js_trio_world (ToggleVideo A true) with
    | Js.Done (jw', _) => jw'
    | _ => js_trio_world
    end.

Lemma js_trio_toggle_step :
  Js.step js_trio_world (ToggleVideo A true) =
  Js.Done (js_trio_toggled, [(B, Js.UserToggledVideo A true)]).
Proof. vm_compute. reflexivity. Qed.

Lemma X4_ordinary_deliveries_stay_in_room_witness :
  ordinary js_trio_world ∧
  Js.step js_trio_world (ToggleVideo A true) =
    Js.Done (js_trio_toggled, [(B, Js.UserToggledVideo A true)]) ∧
  B ∈ dom (Js.members js_trio_world "room1").
Proof.
  split; [exact js_trio_world_ordinary |].
  split; [exact js_trio_toggle_step |].
  assert (Js.enabled js_trio_world (ToggleVideo A true)) as He.
  { apply (bool_decide_unpack _). vm_compute. exact I. }
  assert ((B, Js.UserToggledVideo A true) ∈ [(B, Js.UserToggledVideo A true)])
    as Hin by apply list_elem_of_here.
  destruct (X4_ordinary_deliveries_stay_in_room js_trio_world (ToggleVideo A true)
              _ _ B (Js.UserToggledVideo A true) js_trio_world_ordinary He I
              js_trio_toggle_step Hin) as [Heq | (_ & r & Hr & Hm)].
  - discriminate Heq.
  - vm_compute in Hr. injection Hr as <-. exact Hm.
Defined.

(** X18. On a run with ordinary names, a socket that has not registered
    receives nothing from the others: no handler run for another socket
    delivers a message to a socket whose current room is still [null]. *)
Theorem X18_ordinary_unregistered_receive_nothing jw e jw' out c' msg :
  ordinary jw → Js.enabled jw e → ordinary_event jw e →
  Js.step jw e = Js.Done (jw', out) →
  Js.currentRoom jw !! c' = Some None → c' ≠ actor e →
  (c', msg) ∉ out.
Proof.
  intros Ho He Hoe Hs Hc Hne Hin.
  destruct (ordinary_deliveries jw e jw' out c' msg Ho He Hoe Hs Hin)
    as [-> | (_ & r & _ & Hm)]; [done |].
  destruct (ordinary_counterpart jw Ho) as (w & Hw & HP & ->).
  rewrite embed_dom_members in Hm.
  by apply (unregistered_no_entry w Hw c' r Hc).
Qed.

Lemma X18_ordinary_unregistered_receive_nothing_witness :
  ordinary js_lobby_world ∧
  Js.currentRoom js_lobby_world !! C = Some None ∧
  ∃ jw' out,
    Js.step js_lobby_world (Register A "alice" (Some "room1")) = Js.Done (jw', out) ∧
    (C, Js.NewUserConnected A "alice") ∉ out.
Proof.
  split; [exact js_lobby_world_ordinary |]. split; [reflexivity |].
  assert (Js.enabled js_lobby_world (Register A "alice" (Some "room1"))) as He.
  { apply (bool_decide_unpack _). vm_compute. exact I. }
  assert (ordinary_event js_lobby_world (Register A "alice" (Some "room1"))) as Hoe.
  { apply (bool_decide_unpack _). vm_compute. exact I. }
  assert (C ≠ actor (Register A "alice" (Some "room1"))) as Hne by discriminate.
  destruct (Js.step js_lobby_world (Register A "alice" (Some "room1")))
    as [[jw' out] | |] eqn:Hs; [| vm_compute in Hs; discriminate Hs ..].
  exists jw', out. split; [reflexivity |].
  exact (X18_ordinary_unregistered_receive_nothing js_lobby_world _ jw' out C _
           js_lobby_world_ordinary He Hoe Hs eq_refl Hne).
Defined.

(** ** Entries left behind *)

Lemma enabled_actor_live_or_fresh w e :
  enabled w e → live w (actor e) ∨ actor e ∉ issued w.
Proof. destruct e; simpl; auto. Qed.

Lemma stale_step w e w' out c r :
  Inv w → enabled w e → step w e = Ok (w', out) →
  ¬ live w c → c ∈ dom (members w r) →
  ¬ live w' c ∧ c ∈ dom (members w' r).
Proof.
  intros HI He Hs Hl Hm.
  assert (c ≠ actor e) as Hne.
  { intros ->. destruct (enabled_actor_live_or_fresh w e He) as [? | Hf]; [done |].
    apply Hf. by apply (inv_entries w HI r). }
  destruct (step_other w e w' out c Hs Hne) as (Hmem & Hcur & _).
  unfold live in *. rewrite !elem_of_dom in *. by rewrite Hcur, Hmem.
Qed.

(** X5. On a run with ordinary names, an entry that outlives its socket is
    never removed: once a closed socket still has an entry in [rooms[r]]
    (left behind by a register into another room), every later state keeps
    that entry, so room [r] is never removed again. *)
Theorem X5_ordinary_stale_entry_stays jw t jw' c r :
  ordinary jw → ¬ Js.live jw c → c ∈ dom (Js.members jw r) →
  ordinary_run jw t = Some jw' →
  ¬ Js.live jw' c ∧ c ∈ dom (Js.members jw' r) ∧ is_Some (Js.rooms jw' !! r).
Proof.
  intros Ho Hl Hm Hrun.
  assert (¬ Js.live jw' c ∧ c ∈ dom (Js.members jw' r)) as [Hl' Hm'].
  { revert jw Ho Hl Hm Hrun.
    induction t as [| e t IH]; intros jw Ho Hl Hm; simpl.
    - by intros [= <-].
    - case_decide as He; [| done]. destruct He as [He Hoe].
      destruct (Js.step jw e) as [[jw1 out] | |] eqn:Hs; [| done | done].
      apply IH; [by eapply ordinary_step | |].
      + destruct (ordinary_counterpart jw Ho) as (w & Hw & HP & ->).
        pose proof (reachable_Inv w Hw) as HI.
        destruct (embed_step w e jw1 out HI HP He Hoe Hs)
          as (w1 & out0 & Hd & He' & -> & _).
        rewrite embed_dom_members in Hm.
        by destruct (stale_step w e w1 out0 c r HI He' Hd Hl Hm).
      + destruct (ordinary_counterpart jw Ho) as (w & Hw & HP & ->).
        pose proof (reachable_Inv w Hw) as HI.
        destruct (embed_step w e jw1 out HI HP He Hoe Hs)
          as (w1 & out0 & Hd & He' & -> & _).
        rewrite embed_dom_members in Hm. rewrite embed_dom_members.
        by destruct (stale_step w e w1 out0 c r HI He' Hd Hl Hm). }
  split; [done |]. split; [done |].
  unfold Js.members in Hm'.
  destruct (Js.rooms jw' !! r) as [v |]; [eauto |]. set_solver.
Qed.

(** A moved from "room1" to "room2" and left. *)
Definition js_stale_trace : list Event :=
  [Connect A; Register A "alice" (Some "room1");
   Register A "alice" (Some "room2"); Disconnect A].

Definition js_stale_world : Js.World :=
  Eval vm_compute in default Js.init (ordinary_run Js.init js_stale_trace).

Lemma js_stale_world_run :
  ordinary_run Js.init js_stale_trace = Some js_stale_world.
Proof. vm_compute. reflexivity. Qed.

Definition js_visit_trace : list Event :=
  [Connect B; Register B "bob" (Some "room1"); Disconnect B].

Definition js_visited_world : Js.World :=
  Eval vm_compute in default Js.init (ordinary_run js_stale_world js_visit_trace).

Lemma js_visited_world_run :
  ordinary_run js_stale_world js_visit_trace = Some js_visited_world.
Proof. vm_compute. reflexivity. Qed.

Lemma X5_ordinary_stale_entry_stays_witness :
  ordinary js_stale_world ∧ ¬ Js.live js_stale_world A ∧
  A ∈ dom (Js.members js_stale_world "room1") ∧
  ordinary_run js_stale_world js_visit_trace = Some js_visited_world ∧
  is_Some (Js.rooms js_visited_world !! "room1").
Proof.
  assert (ordinary js_stale_world) as Ho
    by exact (ordinary_run_init _ _ js_stale_world_run).
  assert (¬ Js.live js_stale_world A) as Hl.
  { apply (bool_decide_unpack _). vm_compute. exact I. }
  assert (A ∈ dom (Js.members js_stale_world "room1")) as Hm.
  { apply (bool_decide_unpack _). vm_compute. exact I. }
  split; [exact Ho |]. split; [exact Hl |]. split; [exact Hm |].
  split; [exact js_visited_world_run |].
  exact (proj2 (proj2 (X5_ordinary_stale_entry_stays js_stale_world js_visit_trace
                         js_visited_world A "room1" Ho Hl Hm js_visited_world_run))).
Defined.

(** ** Runs in which no socket changes rooms *)

(** A [register] that is a first registration or names the caller's current
    room again. *)
Definition stays (jw : Js.World) (e : Event) : Prop :=
  match e with
  | Register c _ roomId =>
      ∀ r, Js.currentRoom jw !! c = Some (Some r) → r = or_default roomId
  | _ => True
  end.

Global Instance stays_dec jw e : Decision (stays jw e).
Proof.
  destruct e as [| c name roomId | | |]; simpl; try apply _.
  destruct (Js.currentRoom jw !! c) as [[r |] |].
  - destruct (decide (r = or_default roomId)) as [-> | Hne].
    + left. by intros r [= <-].
    + right. intros H. by apply Hne, H.
  - left. by intros r.
  - left. by intros r.
Defined.

(** The states reached through ordinary events none of which changes the
    room of a socket. *)
Inductive settled : Js.World → Prop :=
| settled_init : settled Js.init
| settled_step jw e jw' out :
    settled jw → Js.enabled jw e → ordinary_event jw e → stays jw e →
    Js.step jw e = Js.Done (jw', out) → settled jw'.

Fixpoint settled_run (jw : Js.World) (t : list Event) : option Js.World :=
  match t with
  | [] => Some jw
  | e :: t' =>
      if decide (Js.enabled jw e ∧ ordinary_event jw e ∧ stays jw e) then
        match Js.step jw e with
        | Js.Done (jw', _) => settled_run jw' t'
        | _ => None
        end
      else None
  end.

Lemma settled_run_from jw t jw' :
  settled jw → settled_run jw t = Some jw' → settled jw'.
Proof.
  revert jw. induction t as [| e t IH]; intros jw Hw; simpl.
  - by intros [= <-].
  - case_decide as He; [| done]. destruct He as (He & Ho & Hk).
    destruct (Js.step jw e) as [[jw1 out] | |] eqn:Hs; [| done | done].
    apply IH. by eapply settled_step.
Qed.

Lemma tidy_init : tidy init.
Proof. intros c r. unfold members. simpl. set_solver. Qed.

Lemma settled_counterpart jw :
  settled jw → ∃ w, reachable w ∧ Plain w ∧ tidy w ∧ jw = embed w.
Proof.
  induction 1 as [| jw e jw' jout _ IH He Ho Hk Hs].
  - exists init. split; [apply reach_init |]. split; [apply Plain_init |].
    split; [apply tidy_init |]. by rewrite embed_init.
  - destruct IH as (w & Hw & HP & Ht & ->).
    pose proof (reachable_Inv w Hw) as HI.
    destruct (embed_step w e jw' jout HI HP He Ho Hs)
      as (w' & out & Hd & He' & -> & _).
    exists w'. split; [by eapply reach_step |]. split; [| split; [| done]].
    + exact (Plain_step w e w' out HI HP He' (embed_plain_event w e He Ho) Hd).
    + apply (tidy_step w e w' out HI Ht He'); [by destruct e | done].
Qed.

(** X6. On a run with ordinary names in which no socket registers into a
    room other than the one it is already in, the registry is exact: every
    entry belongs to a connected socket and sits in that socket's current
    room, hence every socket has an entry in at most one room. *)
Theorem X6_ordinary_registry_exact jw :
  settled jw →
  (∀ c r, c ∈ dom (Js.members jw r) →
          Js.live jw c ∧ Js.currentRoom jw !! c = Some (Some r)) ∧
  (∀ c r1 r2, c ∈ dom (Js.members jw r1) → c ∈ dom (Js.members jw r2) → r1 = r2).
Proof.
  intros Hs. destruct (settled_counterpart jw Hs) as (w & Hw & HP & Ht & ->).
  split.
  - intros c r Hm. rewrite embed_dom_members in Hm.
    pose proof (Ht c r Hm) as Hc. split; [| done].
    unfold Js.live. simpl. by apply elem_of_dom_2 in Hc.
  - intros c r1 r2. rewrite !embed_dom_members. by apply tidy_one_room.
Qed.

(** A and B register in "room1", A registers there again, B leaves. *)
Definition js_settled_trace : list Event :=
  [Connect A; Register A "alice" (Some "room1");
   Connect B; Register B "bob" (Some "room1");
   Register A "alice2" (Some "room1"); Disconnect B].

Definition js_settled_world : Js.World :=
  Eval vm_compute in default Js.init (settled_run Js.init js_settled_trace).

Lemma js_settled_world_run :
  settled_run Js.init js_settled_trace = Some js_settled_world.
Proof. vm_compute. reflexivity. Qed.

Lemma X6_ordinary_registry_exact_witness :
  settled js_settled_world ∧
  A ∈ dom (Js.members js_settled_world "room1") ∧
  Js.currentRoom js_settled_world !! A = Some (Some "room1").
Proof.
  assert (settled js_settled_world) as Hs
    by exact (settled_run_from _ _ _ settled_init js_settled_world_run).
  assert (A ∈ dom (Js.members js_settled_world "room1")) as Hm.
  { apply (bool_decide_unpack _). vm_compute. exact I. }
  split; [exact Hs |]. split; [exact Hm |].
  exact (proj2 (proj1 (X6_ordinary_registry_exact js_settled_world Hs) A "room1" Hm)).
Defined.

(** ** Registering again *)

(** X7. On a run with ordinary names, a [register] by a socket that names
    the room it is already in changes only the caller's own entry: it is
    replaced by the new username with [isVideoEnabled] back to [false],
    whatever it was, while the set of entries of the room, the other rooms,
    the current room and the socket.io rooms stay the same; the other
    connected sockets with an entry in the room are sent [newUserConnected]
    again. *)
Theorem X7_ordinary_register_again jw c name roomId r :
  ordinary jw → Js.currentRoom jw !! c = Some (Some r) → or_default roomId = r →
  ∃ jw' out,
    Js.step jw (Register c name roomId) = Js.Done (jw', out) ∧
    Js.members jw' r = <[c := Js.new_peer name]> (Js.members jw r) ∧
    dom (Js.members jw' r) = dom (Js.members jw r) ∧
    (∀ r', r' ≠ r → Js.rooms jw' !! r' = Js.rooms jw !! r') ∧
    Js.currentRoom jw' = Js.currentRoom jw ∧ Js.joined jw' = Js.joined jw ∧
    (∀ c', c' ≠ c → Js.live jw c' → c' ∈ dom (Js.members jw r) →
           (c', Js.NewUserConnected c name) ∈ out).
Proof.
  intros Ho Hc <-. destruct (ordinary_counterpart jw Ho) as (w & Hw & HP & ->).
  pose proof (reachable_Inv w Hw) as HI. simpl in Hc.
  destruct (current_room_lookup w c _ HI Hc) as (Hrn & m & p & Hm & Hp).
  destruct (plain_room w _ m HP Hm) as [Hri Hrs].
  assert (live w c) as Hl by by apply elem_of_dom_2 in Hc.
  assert (Inv (registered w c name roomId)) as HI' by by apply Inv_register.
  rewrite sim_register by done.
  do 2 eexists. split; [done |].
  assert (Hin : c ∈ dom (members w (or_default roomId))).
  { unfold members. rewrite Hm. by apply elem_of_dom. }
  split; [| split; [| split; [| split; [| split]]]].
  - rewrite !embed_members, members_registered, decide_True by done.
    by rewrite fmap_insert.
  - rewrite !embed_dom_members, members_registered, decide_True by done.
    rewrite dom_insert_L. set_solver.
  - intros r' Hne. simpl. by rewrite !lookup_fmap, lookup_insert_ne.
  - simpl. by apply insert_id.
  - rewrite (embed_clean (registered _ _ _ _)), embed_clean. simpl. f_equal.
    assert (is_Some (joined w !! c)) as [gs Hgs].
    { apply elem_of_dom. by rewrite (inv_joined w HI). }
    rewrite Hgs. simpl. apply insert_id. rewrite Hgs. f_equal.
    assert (or_default roomId ∈ gs)
      by by apply (inv_group w HI c gs _ Hgs).
    set_solver.
  - intros c' Hne Hl' Hm'. rewrite embed_dom_members in Hm'.
    rewrite relay_cons, decide_True by done. apply elem_of_cons. right.
    apply (elem_of_relay_broadcast (registered w c name roomId) w); [done | |].
    + intros x Hx. apply (group_live _ _ _ HI') in Hx. unfold live in *.
      simpl in Hx. rewrite dom_insert_L in Hx. set_solver.
    + split; [done |]. split; [done |]. split.
      * unfold live in *. simpl. rewrite dom_insert_L. set_solver.
      * rewrite members_registered, decide_True, dom_insert_L by done.
        set_solver.
Qed.

Lemma X7_ordinary_register_again_witness :
  ordinary js_trio_toggled ∧
  Js.members js_trio_toggled "room1" !! A =
    Some (Js.VObj (<["username" := Js.VStr "alice"]>
                     (<["isVideoEnabled" := Js.VBool true]> ∅))) ∧
  ∃ jw' out,
    Js.step js_trio_toggled (Register A "alice" (Some "room1")) = Js.Done (jw', out) ∧
    Js.members jw' "room1" !! A = Some (Js.new_peer "alice").
Proof.
  assert (ordinary js_trio_toggled) as Ho.
  { apply (ordinary_step js_trio_world (ToggleVideo A true) js_trio_toggled
             [(B, Js.UserToggledVideo A true)] js_trio_world_ordinary);
      [| exact I | exact js_trio_toggle_step].
    apply (bool_decide_unpack _). vm_compute. exact I. }
  split; [exact Ho |]. split; [vm_compute; reflexivity |].
  destruct (X7_ordinary_register_again js_trio_toggled A "alice" (Some "room1")
              "room1" Ho eq_refl eq_refl) as (jw' & out & Hs & He & _).
  exists jw', out. split; [exact Hs |].
  rewrite He. apply lookup_insert_eq.
Defined.

(** ** The dictionary model and the program *)

(** X24. The dictionary model is exact on ordinary names.  From the
    counterpart of a reachable state in which names are ordinary, an event
    that keeps them so makes the handlers on JavaScript objects and
    socket.io rooms complete, and takes them to the counterpart of the state
    the dictionary model reaches, with the deliveries of the dictionary
    model except those addressed to a closed socket; names are ordinary
    again afterwards. *)
Theorem X24_dictionary_model_exact w e :
  reachable w → Plain w → enabled w e → plain_event w e →
  ∃ w' out,
    step w e = Ok (w', out) ∧
    Js.step (embed w) e = Js.Done (embed w', relay w out) ∧
    reachable w' ∧ Plain w'.
Proof.
  intros Hw HP He Hpe. pose proof (reachable_Inv w Hw) as HI.
  destruct (step_total w e) as (w' & out & Hs). exists w', out.
  split; [done |]. split; [by apply simulation |].
  split; [by eapply reach_step | by eapply Plain_step].
Qed.

Lemma X24_dictionary_model_exact_witness :
  reachable fresh_world ∧ Plain fresh_world ∧
  ∃ w' out,
    step fresh_world (Register A "alice" (Some "room1")) = Ok (w', out) ∧
    Js.step (embed fresh_world) (Register A "alice" (Some "room1")) =
      Js.Done (embed w', relay fresh_world out).
Proof.
  assert (Plain fresh_world) as HP.
  { apply (Plain_step init (Connect A) fresh_world [] Inv_init Plain_init).
    - apply (bool_decide_unpack _). vm_compute. exact I.
    - apply (bool_decide_unpack _). vm_compute. exact I.
    - reflexivity. }
  assert (enabled fresh_world (Register A "alice" (Some "room1"))) as He.
  { apply (bool_decide_unpack _). vm_compute. exact I. }
  assert (plain_event fresh_world (Register A "alice" (Some "room1"))) as Hpe.
  { apply (bool_decide_unpack _). vm_compute. exact I. }
  split; [exact fresh_world_reachable |]. split; [exact HP |].
  destruct (X24_dictionary_model_exact fresh_world
              (Register A "alice" (Some "room1")) fresh_world_reachable HP He Hpe)
    as (w' & out & Hs & Hj & _).
  exists w', out. split; [exact Hs | exact Hj].
Defined.


